(** * India finance news aggregator: the fetcher's error policy and the
      selector [filter_last_window] of [app.py]

    The development has three layers.
    - Python values as [app.py] handles them: aware datetimes, the item
      dictionaries built by [fetch_feed], a store of such dictionaries
      addressed by object identity, and a small exception monad.
    - The functions of [app.py], translated statement by statement over that
      store ([fetch_feed], [fetch_all], [filter_last_window]).
    - A store-free reading of the selection algorithm ([select]), proved
      equal to what [filter_last_window] returns on every store whose
      references are allocated, and on which the list arguments are made.

    The entry helpers [extract_image] and [get_publisher_name] are modelled
    over a type of Python values, and [index] as the composition of
    [fetch_all] and [filter_last_window] up to the call of the template. *)

From stdpp Require Import gmap strings list sorting.
From Stdlib Require Import ZArith Lia.

Local Open Scope Z_scope.

(** ** Aware datetimes *)

(** The two [tzinfo] objects of the program: [timezone.utc] and
    [INDIA_TZ = tz.gettz("Asia/Kolkata")]. *)
Inductive tzinfo := UTC | INDIA_TZ.

(** A timezone-aware [datetime]: the instant it denotes, in microseconds
    since the epoch, and the zone it is displayed in. India has a single
    fixed offset, so the order of local wall-clock times is the order of
    instants; Python compares aware datetimes accordingly. *)
Record datetime := Datetime { instant : Z; tz : tzinfo }.

Global Instance tzinfo_eq_dec : EqDecision tzinfo.
Proof. solve_decision. Defined.
Global Instance datetime_eq_dec : EqDecision datetime.
Proof. solve_decision. Defined.

(** [d.astimezone(z)]: same instant, other zone. *)
Definition astimezone (z : tzinfo) (d : datetime) : datetime :=
  {| instant := instant d; tz := z |}.

(** [d - timedelta(hours=n)]. *)
Definition minus_hours (d : datetime) (n : Z) : datetime :=
  {| instant := instant d - n * 3600000000; tz := tz d |}.

(** [a >= b] on aware datetimes. *)
Definition dt_ge (a b : datetime) : bool := instant b <=? instant a.

(** ** Module-level configuration *)

Definition FEEDS : list (string * string) :=
  [ ("Moneycontrol", "http://www.moneycontrol.com/rss/latestnews.xml");
    ("BS Hindi - Markets News",
     "https://hindi.business-standard.com/rss/markets/news.xml");
    ("BS Hindi - Share Market",
     "https://hindi.business-standard.com/rss/markets/share-market.xml");
    ("The Hindu - Markets",
     "https://www.thehindu.com/business/markets/feeder/default.rss");
    ("Google News - India Markets",
     "https://news.google.com/rss/search?q=india+stock+market+OR+nifty+OR+sensex&hl=en-IN&gl=IN&ceid=IN:en") ]%string.

Definition HOURS_WINDOW : Z := 24.

(** ** Items *)

(** The dictionary that [fetch_feed] appends for one entry. Its seven keys
    are always present; ["dt_utc"] and ["image"] may hold [None]. The key
    ["dt_ist"] is absent until [filter_last_window] writes it. *)
Record Item := MkItem {
  source : string;
  feed : string;
  title : string;
  link : string;
  summary : string;
  dt_utc : option datetime;
  image : option string;
  dt_ist : option datetime
}.

Global Instance Item_eq_dec : EqDecision Item.
Proof. solve_decision. Defined.

(** [item["dt_ist"] = d] *)
Definition set_dt_ist (d : datetime) (it : Item) : Item :=
  {| source := source it; feed := feed it; title := title it;
     link := link it; summary := summary it; dt_utc := dt_utc it;
     image := image it; dt_ist := Some d |}.

(** ** Exceptions *)

(** The exceptions the model can raise. [KeyError] is a subscript on a
    missing dictionary key. [Exception] stands for whatever an external
    library raises below [Exception] (connection errors, HTTP status errors,
    [ValueError] of the [datetime] constructor). [NoSuchObject] is not a
    Python exception: it marks a reference to an object that is not in the
    store, which the theorems rule out by [pool_allocated]. *)
Inductive exn :=
  | KeyError (k : string)
  | Exception (msg : string)
  | NoSuchObject.

Inductive result (A : Type) :=
  | Ok (a : A)
  | Raise (e : exn).
Arguments Ok {A} a.
Arguments Raise {A} e.

Definition bind_r {A B} (c : result A) (k : A → result B) : result B :=
  match c with
  | Ok a => k a
  | Raise e => Raise e
  end.

Notation "x <- c ; k" := (bind_r c (λ x, k))
  (at level 20, c at level 100, k at level 200, only parsing).
Notation "' x <- c ; k" := (bind_r c (λ x, k))
  (at level 20, x pattern, c at level 100, k at level 200, only parsing).

(** [try: c  except Exception as e: handler(e)] *)
Definition try_except {A} (c : result A) (handler : exn → result A) : result A :=
  match c with
  | Ok a => Ok a
  | Raise e => handler e
  end.

(** A list comprehension [[f(x) for x in l]] whose body may raise. *)
Fixpoint map_r {A B} (f : A → result B) (l : list A) : result (list B) :=
  match l with
  | [] => Ok []
  | x :: l' => y <- f x; ys <- map_r f l'; Ok (y :: ys)
  end.

(** A list comprehension [[x for x in l if p(x)]] whose test may raise. *)
Fixpoint filter_r {A} (p : A → result bool) (l : list A) : result (list A) :=
  match l with
  | [] => Ok []
  | x :: l' => b <- p x; ys <- filter_r p l'; Ok (if b then x :: ys else ys)
  end.

(** ** Sorting *)

(** [list.sort(key=..., reverse=True)] and [sorted(..., key=..., reverse=True)]
    are stable: elements with equal keys keep their relative order. That
    fixes the result, computed here by insertion from the right. *)
Section Sort.
Context {A : Type} (key : A → Z).

Fixpoint insert_desc (x : A) (l : list A) : list A :=
  match l with
  | [] => [x]
  | y :: l' => if key y <=? key x then x :: y :: l' else y :: insert_desc x l'
  end.

Definition sort_desc (l : list A) : list A := foldr insert_desc [] l.

(** Newest first: [a] may stand before [b]. *)
Definition desc (a b : A) : Prop := key b ≤ key a.

End Sort.

(** [l[:n]] for a Python integer [n]: a negative bound counts from the end. *)
Definition slice_to {A} (l : list A) (n : Z) : list A :=
  if 0 <=? n then take (Z.to_nat n) l
  else take (Z.to_nat (Z.of_nat (length l) + n)) l.

(** ** The store *)

(** Item dictionaries are mutable objects. The store maps the identity of
    each to its current contents; a list of items is a list of identities,
    so that one object may occur in several lists, or twice in one. *)
Abbreviation loc := nat.
Abbreviation heap := (gmap nat Item).

Definition deref (h : heap) (l : loc) : result Item :=
  match h !! l with
  | Some it => Ok it
  | None => Raise NoSuchObject
  end.

(** [it["dt_ist"]] *)
Definition getitem_dt_ist (h : heap) (l : loc) : result datetime :=
  it <- deref h l;
  match dt_ist it with
  | Some d => Ok d
  | None => Raise (KeyError "dt_ist")
  end.

(** [it["feed"]], [it.get("feed")], [it["link"]], [it["source"]]: keys that
    every item has. *)
Definition getitem_feed (h : heap) (l : loc) : result string :=
  it <- deref h l; Ok (feed it).
Definition getitem_link (h : heap) (l : loc) : result string :=
  it <- deref h l; Ok (link it).
Definition getitem_source (h : heap) (l : loc) : result string :=
  it <- deref h l; Ok (source it).

(** [(it["feed"], it["link"])] *)
Definition getitem_key (h : heap) (l : loc) : result (string * string) :=
  f <- getitem_feed h l; k <- getitem_link h l; Ok (f, k).

(** ** [filter_last_window] *)

(** [datetime.now(INDIA_TZ)], for a clock that reads instant [now]. *)
Definition now_ist (now : Z) : datetime := {| instant := now; tz := INDIA_TZ |}.

(** The first loop: [for item in items: item["dt_ist"] = ...]. *)
Fixpoint stamp_loop (now_ist : datetime) (items : list loc) (h : heap)
    : result heap :=
  match items with
  | [] => Ok h
  | item :: rest =>
      it <- deref h item;
      let h' :=
        match dt_utc it with
        | Some d => <[item := set_dt_ist (astimezone INDIA_TZ d) it]> h
        | None => <[item := set_dt_ist now_ist it]> h
        end in
      stamp_loop now_ist rest h'
  end.

(** [ls.sort(key=lambda x: x["dt_ist"], reverse=True)]: the keys are read
    first, then the decorated list is sorted. *)
Definition sort_by_dt_ist (h : heap) (ls : list loc) : result (list loc) :=
  keys <- map_r (getitem_dt_ist h) ls;
  Ok ((sort_desc (λ p : datetime * loc, instant p.1) (zip keys ls)).*2).

(** [[it for it in ls if it.get("feed") == feed_name]] *)
Definition items_of_feed (h : heap) (feed_name : string) (ls : list loc)
    : result (list loc) :=
  filter_r (λ it, f <- getitem_feed h it; Ok (bool_decide (f = feed_name))) ls.

(** The inner loop [for cand in feed_items_sorted: ...], with its [continue]
    and [break]. *)
Fixpoint fallback_loop (h : heap) (fallback_limit_per_feed : Z)
    (cands final_items : list loc) (seen_keys : gset (string * string))
    (already_in : list loc) : result (list loc * gset (string * string)) :=
  match cands with
  | [] => Ok (final_items, seen_keys)
  | cand :: rest =>
      key <- getitem_key h cand;
      if decide (key ∈ seen_keys) then
        fallback_loop h fallback_limit_per_feed rest final_items seen_keys
          already_in
      else
        let final_items := final_items ++ [cand] in
        let seen_keys := {[ key ]} ∪ seen_keys in
        let already_in := already_in ++ [cand] in
        if fallback_limit_per_feed <=? Z.of_nat (length already_in) then
          Ok (final_items, seen_keys)
        else
          fallback_loop h fallback_limit_per_feed rest final_items seen_keys
            already_in
  end.

(** One iteration of [for feed_name in FEEDS.keys(): ...]. *)
Definition feed_step (h : heap) (items : list loc)
    (fallback_limit_per_feed : Z) (st : list loc * gset (string * string))
    (feed_name : string) : result (list loc * gset (string * string)) :=
  let '(final_items, seen_keys) := st in
  feed_items <- items_of_feed h feed_name items;
  match feed_items with
  | [] => Ok st
  | _ :: _ =>
      already_in <- items_of_feed h feed_name final_items;
      if fallback_limit_per_feed <=? Z.of_nat (length already_in) then Ok st
      else
        feed_items_sorted <- sort_by_dt_ist h feed_items;
        fallback_loop h fallback_limit_per_feed feed_items_sorted
          final_items seen_keys already_in
  end.

Fixpoint feeds_loop (h : heap) (items : list loc)
    (fallback_limit_per_feed : Z) (feed_names : list string)
    (st : list loc * gset (string * string))
    : result (list loc * gset (string * string)) :=
  match feed_names with
  | [] => Ok st
  | feed_name :: rest =>
      st' <- feed_step h items fallback_limit_per_feed st feed_name;
      feeds_loop h items fallback_limit_per_feed rest st'
  end.

(** [counts[k] = counts.get(k, 0) + 1] *)
Definition bump (k : string) (counts : gmap string nat) : gmap string nat :=
  <[k := (default 0%nat (counts !! k) + 1)%nat]> counts.

(** What a tally that started as [before] holds for a key that was counted
    [n] more times. *)
Definition tallied (before : option nat) (n : nat) : option nat :=
  match n with
  | O => before
  | S _ => Some (default 0 before + n)%nat
  end.

(** The closing loop that tallies items per feed and per source for the
    log line. *)
Fixpoint debug_counts (h : heap) (ls : list loc)
    (counts_by_feed counts_by_source : gmap string nat)
    : result (gmap string nat * gmap string nat) :=
  match ls with
  | [] => Ok (counts_by_feed, counts_by_source)
  | it :: rest =>
      f <- getitem_feed h it;
      let counts_by_feed := bump f counts_by_feed in
      s <- getitem_source h it;
      let counts_by_source := bump s counts_by_source in
      debug_counts h rest counts_by_feed counts_by_source
  end.

(** [if global_limit is not None and len(final_items) > global_limit:
       final_items = final_items[:global_limit]] *)
Definition trim {A} (global_limit : option Z) (final_items : list A) : list A :=
  match global_limit with
  | Some g =>
      if g <? Z.of_nat (length final_items) then slice_to final_items g
      else final_items
  | None => final_items
  end.

(** [filter_last_window(items, fallback_limit_per_feed, global_limit)].
    The module-level [FEEDS] and the reading [now] of the clock are explicit
    arguments; [h] is the store on entry. The result is the returned list
    together with the store on exit. What is written to standard output is
    not modelled. *)
Definition filter_last_window (feeds : list (string * string)) (now : Z)
    (items : list loc) (fallback_limit_per_feed : Z) (global_limit : option Z)
    (h : heap) : result (list loc * heap) :=
  let now_ist := now_ist now in
  let cutoff := minus_hours now_ist HOURS_WINDOW in
  h <- stamp_loop now_ist items h;
  within_window <-
    filter_r (λ it, d <- getitem_dt_ist h it; Ok (dt_ge d cutoff)) items;
  within_window <- sort_by_dt_ist h within_window;
  let final_items := within_window in
  keys <- map_r (getitem_key h) final_items;
  let seen_keys : gset (string * string) := list_to_set keys in
  st <- feeds_loop h items fallback_limit_per_feed feeds.*1
          (final_items, seen_keys);
  final_items <- sort_by_dt_ist h st.1;
  let final_items := trim global_limit final_items in
  _ <- debug_counts h final_items ∅ ∅;
  Ok (final_items, h).

(** ** The selection algorithm, store-free *)

(** The same statements over entries of any type [A] whose timestamp, feed
    and link are read by total functions. [filter_last_window] computes
    [trim global_limit (select ...)] over the stamped store: lemma
    [filter_last_window_select] below. *)
Section Selection.
Context {A : Type} (dt : A → Z) (feed_of link_of : A → string).

Definition key_of (a : A) : string * string := (feed_of a, link_of a).

Definition of_feed (f : string) (l : list A) : list A :=
  filter (λ a, feed_of a = f) l.

Definition window (cutoff : Z) (pool : list A) : list A :=
  sort_desc dt (filter (λ a, cutoff ≤ dt a) pool).

Fixpoint fallback (limit : Z) (cands final : list A)
    (seen : gset (string * string)) (already : list A)
    : list A * gset (string * string) :=
  match cands with
  | [] => (final, seen)
  | cand :: rest =>
      if decide (key_of cand ∈ seen) then fallback limit rest final seen already
      else
        if limit <=? Z.of_nat (length (already ++ [cand])) then
          (final ++ [cand], {[ key_of cand ]} ∪ seen)
        else
          fallback limit rest (final ++ [cand]) ({[ key_of cand ]} ∪ seen)
            (already ++ [cand])
  end.

Definition feed_pass (pool : list A) (limit : Z)
    (st : list A * gset (string * string)) (f : string)
    : list A * gset (string * string) :=
  match of_feed f pool with
  | [] => st
  | _ :: _ =>
      if limit <=? Z.of_nat (length (of_feed f st.1)) then st
      else fallback limit (sort_desc dt (of_feed f pool)) st.1 st.2
             (of_feed f st.1)
  end.

Definition floors (feed_names : list string) (limit : Z) (pool ww : list A)
    : list A * gset (string * string) :=
  foldl (feed_pass pool limit) (ww, list_to_set (key_of <$> ww)) feed_names.

Definition select (feed_names : list string) (cutoff limit : Z)
    (pool : list A) : list A :=
  sort_desc dt (floors feed_names limit pool (window cutoff pool)).1.

(** The entries of feed [f] that are older than the window. *)
Definition stale_of_feed (cutoff : Z) (f : string) (l : list A) : list A :=
  filter (λ a, feed_of a = f ∧ dt a < cutoff) l.

(** The distinct links that feed [f] has in the pool. *)
Definition links_of_feed (f : string) (pool : list A) : gset string :=
  list_to_set (link_of <$> of_feed f pool).

(** Entry [c] is represented in [l]: some entry of [l] has its key and is
    at least as recent. *)
Definition represented (l : list A) (c : A) : Prop :=
  ∃ e, e ∈ l ∧ key_of e = key_of c ∧ dt c ≤ dt e.

(** The invariant of the loop over the registry, for a state [st] reached
    from the within-window list [ww]: the set of seen keys is the set of
    keys of the list, and what has been appended to [ww] are stale pool
    items of configured feeds, with pairwise distinct keys that no entry of
    [ww] has. *)
Definition appended_ok (fs : list string) (cutoff : Z) (pool ww : list A)
    (st : list A * gset (string * string)) : Prop :=
  st.2 = list_to_set (key_of <$> st.1) ∧
  ∃ added, st.1 = ww ++ added ∧
    Forall (λ a, a ∈ pool ∧ dt a < cutoff ∧ feed_of a ∈ fs) added ∧
    NoDup (key_of <$> added) ∧
    (∀ a b, a ∈ added → b ∈ ww → key_of a ≠ key_of b).

End Selection.

(** ** The fetcher *)

(** [requests] and [feedparser] are external: what they return, or raise, on
    a given URL is a parameter, as is what the entry helpers
    [extract_image] and [get_publisher_name] and the [datetime] constructor
    do on a given entry. Each may raise. *)
Section Fetcher.
Context {Response Entry TimeStruct : Type}.
(** [SESSION.get(url, timeout=10)] followed by [resp.raise_for_status()] *)
Context (session_get : string → result Response).
(** [feedparser.parse(resp.content).entries] *)
Context (feedparser_parse : Response → result (list Entry)).
(** [getattr(entry, name, None)] for the attributes read by [fetch_feed] *)
Context (published_parsed updated_parsed : Entry → option TimeStruct).
Context (entry_title entry_link entry_summary : Entry → option string).
(** The [datetime] built from the first six fields of [dt_struct], with
    [tzinfo=timezone.utc] *)
Context (datetime_utc : TimeStruct → result datetime).
Context (extract_image : Entry → result (option string)).
Context (get_publisher_name : string → Entry → result string).

(** The body of [for entry in parsed.entries: ...]. *)
Definition normalise (source_name : string) (entry : Entry) : result Item :=
  let dt_struct :=
    match published_parsed entry with
    | Some t => Some t
    | None => updated_parsed entry
    end in
  dt_utc <-
    match dt_struct with
    | Some t => d <- datetime_utc t; Ok (Some d)
    | None => Ok None
    end;
  image_url <- extract_image entry;
  publisher <- get_publisher_name source_name entry;
  Ok {| source := publisher;
        feed := source_name;
        title := default "No title"%string (entry_title entry);
        link := default ""%string (entry_link entry);
        summary := default ""%string (entry_summary entry);
        dt_utc := dt_utc;
        image := image_url;
        dt_ist := None |}.

(** [fetch_feed(source_name, url)]: only the HTTP request sits inside the
    [try]; parsing and normalisation follow it. *)
Definition fetch_feed (source_name url : string) : result (list Item) :=
  match session_get url with
  | Raise e => Ok []
  | Ok resp =>
      entries <- feedparser_parse resp;
      map_r (normalise source_name) entries
  end.

(** [fetch_all()], over the registry [feeds]. *)
Fixpoint fetch_all_loop (feeds : list (string * string))
    (all_items : list Item) : result (list Item) :=
  match feeds with
  | [] => Ok all_items
  | (name, url) :: rest =>
      all_items <-
        try_except
          (feed_items <- fetch_feed name url; Ok (all_items ++ feed_items))
          (λ e, Ok all_items);
      fetch_all_loop rest all_items
  end.

Definition fetch_all (feeds : list (string * string)) : result (list Item) :=
  fetch_all_loop feeds [].

(** What one feed adds to the pool of [fetch_all]: the items [fetch_feed]
    returns, and nothing when [fetch_feed] raises. *)
Definition contribution (feed : string * string) : list Item :=
  match fetch_feed feed.1 feed.2 with
  | Ok feed_items => feed_items
  | Raise _ => []
  end.

End Fetcher.

(** ** Reading the store *)

(** Every reference of the pool denotes an object of the store. *)
Definition pool_allocated (h : heap) (items : list loc) : Prop :=
  Forall (λ l, is_Some (h !! l)) items.

(** Every reference of the pool denotes an object that has ["dt_ist"]. *)
Definition pool_stamped (h : heap) (items : list loc) : Prop :=
  Forall (λ l, ∃ it d, h !! l = Some it ∧ dt_ist it = Some d) items.

(** What the first loop leaves in one item. *)
Definition stamp (now_ist : datetime) (it : Item) : Item :=
  match dt_utc it with
  | Some d => set_dt_ist (astimezone INDIA_TZ d) it
  | None => set_dt_ist now_ist it
  end.

(** The store after the first loop. *)
Definition stamp_heap (now_ist : datetime) (items : list loc) (h : heap) : heap :=
  foldl (λ h l, alter (stamp now_ist) l h) h items.

(** Total readers of a store, for stating results about the entries a
    returned list refers to. *)
Definition dtime_at (h : heap) (l : loc) : datetime :=
  default (Datetime 0 INDIA_TZ) (h !! l ≫= dt_ist).
Definition dt_at (h : heap) (l : loc) : Z := instant (dtime_at h l).
Definition feed_at (h : heap) (l : loc) : string :=
  match h !! l with Some it => feed it | None => ""%string end.
Definition link_at (h : heap) (l : loc) : string :=
  match h !! l with Some it => link it | None => ""%string end.
Definition source_at (h : heap) (l : loc) : string :=
  match h !! l with Some it => source it | None => ""%string end.

(** The start of the window: [now_ist - timedelta(hours=HOURS_WINDOW)]. *)
Definition cutoff (now : Z) : Z := instant (minus_hours (now_ist now) HOURS_WINDOW).

(** Equality of two items on every key other than ["dt_ist"]. *)
Definition same_but_dt_ist (a b : Item) : Prop :=
  source a = source b ∧ feed a = feed b ∧ title a = title b ∧
  link a = link b ∧ summary a = summary b ∧ dt_utc a = dt_utc b ∧
  image a = image b.

(** The de-duplication key of an entry of the store. *)
Definition key_at (h : heap) : loc → string * string :=
  key_of (feed_at h) (link_at h).

(** The store on exit of a call at clock reading [now]. *)
Definition store_after (now : Z) (items : list loc) (h : heap) : heap :=
  stamp_heap (now_ist now) items h.

(** The objects that a list of freshly built item dictionaries occupies,
    and the list of references to them: what [index] passes on from
    [fetch_all] to [filter_last_window]. *)
Definition objects (all_items : list Item) : heap := map_seq 0 all_items.
Definition refs (all_items : list Item) : list loc := seq 0 (length all_items).

(** ** Feed entries as Python values *)

(** [extract_image] and [get_publisher_name] inspect what [feedparser]
    hands them with [getattr], [isinstance], truthiness and [.get]. A value
    is one of the kinds these tests tell apart.
    - [VDict true d] is a [FeedParserDict]: a [dict] whose keys can also be
      read as attributes. [d] is the mapping as its lookups observe it.
    - [VDict false d] is a plain [dict].
    - [VObj attrs] is any other object that has exactly the data attributes
      [attrs]; it is not a list, not a dict, has no methods and is truthy.
    - [VOpaque t] is a value without attributes of interest (a number, a
      bound method) whose truthiness is [t]. *)
#[local] Unset Elimination Schemes.
Inductive value :=
  | VNone
  | VStr (s : string)
  | VList (l : list value)
  | VDict (attr_access : bool) (d : gmap string value)
  | VObj (attrs : gmap string value)
  | VOpaque (t : bool).
#[local] Set Elimination Schemes.

(** [bool(v)] *)
Definition truthy (v : value) : bool :=
  match v with
  | VNone => false
  | VStr s => match s with EmptyString => false | String _ _ => true end
  | VList l => match l with [] => false | _ :: _ => true end
  | VDict _ d => negb (bool_decide (size d = 0%nat))
  | VObj _ => true
  | VOpaque t => t
  end.

(** [getattr(x, name, default)], for the attribute names [app.py] reads.
    Among them only ["title"] names something that a built-in type has: the
    method [str.title]. *)
Definition getattr (x : value) (name : string) (default : value) : value :=
  match x with
  | VDict true d => match d !! name with Some v => v | None => default end
  | VObj attrs => match attrs !! name with Some v => v | None => default end
  | VStr _ => if decide (name = "title"%string) then VOpaque true else default
  | _ => default
  end.

(** [x.get(key, default)]: only dicts have the method. *)
Definition call_get (x : value) (key : string) (default : value) : result value :=
  match x with
  | VDict _ d => Ok (match d !! key with Some v => v | None => default end)
  | VObj attrs =>
      match attrs !! "get"%string with
      | Some _ => Raise (Exception "TypeError")
      | None => Raise (Exception "AttributeError")
      end
  | _ => Raise (Exception "AttributeError")
  end.

(** [x.startswith(prefix)]: only strings have the method. *)
Definition call_startswith (x : value) (prefix : string) : result bool :=
  match x with
  | VStr s => Ok (String.prefix prefix s)
  | _ => Raise (Exception "AttributeError")
  end.

(** The values that [for link in x] runs through: the elements of a list,
    the characters of a string, the keys of a dict. *)
Definition iterate (x : value) : result (list value) :=
  match x with
  | VList l => Ok l
  | VStr s => Ok ((λ c, VStr (String c EmptyString)) <$> String.list_ascii_of_string s)
  | VDict _ d => Ok (VStr <$> (map_to_list d).*1)
  | _ => Raise (Exception "TypeError")
  end.

(** [a or b], where evaluating [b] may raise. *)
Definition or_else (a : value) (b : result value) : result value :=
  if truthy a then Ok a else b.

(** ** [extract_image] *)

(** The block that [extract_image] runs on [media_content] and again on
    [media_thumbnail]: [Some url] when it returns [url], [None] when it
    falls through. *)
Definition url_of_media (media : value) : result (option value) :=
  if truthy media then
    match media with
    | VList l =>
        match l with
        | first :: _ =>
            url <- call_get first "url" VNone;
            Ok (if truthy url then Some url else None)
        | [] => Ok None
        end
    | VDict _ _ =>
        url <- call_get media "url" VNone;
        Ok (if truthy url then Some url else None)
    | _ => Ok None
    end
  else Ok None.

(** [for link in ...: ...], ending in the final [return None]. *)
Fixpoint image_link (links : list value) : result value :=
  match links with
  | [] => Ok VNone
  | link :: rest =>
      link_type <-
        or_else (getattr link "type" (VStr "")) (call_get link "type" (VStr ""));
      href <-
        or_else (getattr link "href" (VStr "")) (call_get link "href" (VStr ""));
      hit <-
        (if truthy link_type then
           is_image <- call_startswith link_type "image/";
           Ok (is_image && truthy href)
         else Ok false);
      if hit then Ok href else image_link rest
  end.

Definition extract_image (entry : value) : result value :=
  found <- url_of_media (getattr entry "media_content" VNone);
  match found with
  | Some url => Ok url
  | None =>
      found <- url_of_media (getattr entry "media_thumbnail" VNone);
      match found with
      | Some url => Ok url
      | None =>
          links <- iterate (getattr entry "links" (VList []));
          image_link links
      end
  end.

(** ** [get_publisher_name] *)

Definition get_publisher_name (default_source_name : string) (entry : value)
    : result value :=
  let publisher := VStr default_source_name in
  let src := getattr entry "source" VNone in
  if truthy src then
    let title_attr :=
      if truthy (getattr src "title" VNone) then getattr src "title" VNone
      else getattr src "name" VNone in
    if truthy title_attr then Ok title_attr
    else
      try_except
        (title_dict <-
           (t <- call_get src "title" VNone;
            if truthy t then Ok t else call_get src "name" VNone);
         Ok (if truthy title_dict then title_dict else publisher))
        (λ _, Ok publisher)
  else Ok publisher.

(** An entry of the shape [feedparser] gives it: [media_content] and
    [media_thumbnail] are absent, a dict, or a list whose first element is a
    dict; [links] is absent or a list of dicts whose ["type"] is a string
    when it is truthy. *)
Definition is_dict (v : value) : Prop :=
  match v with VDict _ _ => True | _ => False end.

Definition media_shaped (media : value) : Prop :=
  match media with
  | VList (first :: _) => is_dict first
  | _ => True
  end.

Definition link_shaped (link : value) : Prop :=
  match link with
  | VDict _ d =>
      match d !! "type"%string with
      | Some (VStr _) | Some VNone | None => True
      | Some v => truthy v = false
      end
  | _ => False
  end.

Definition entry_shaped (entry : value) : Prop :=
  media_shaped (getattr entry "media_content" VNone) ∧
  media_shaped (getattr entry "media_thumbnail" VNone) ∧
  ∃ links, getattr entry "links" (VList []) = VList links ∧
           Forall link_shaped links.

(** ** [index] *)

(** The keyword arguments that [index] passes to [render_template_string];
    the rendering itself is [flask]'s. *)
Record page := Page {
  page_items : list loc;
  unique_sources : list string;
  hours_window : Z
}.

(** [sorted({item["source"] for item in recent})]: the distinct sources in
    ascending order. Strings are byte strings here, and the byte order of
    UTF-8 is the code point order that Python compares by. *)
Definition sorted_set (sources : list string) : list string :=
  merge_sort String.le (elements (list_to_set sources : gset string)).

Section Index.
Context {Response Entry TimeStruct : Type}.
Context (session_get : string → result Response).
Context (feedparser_parse : Response → result (list Entry)).
Context (published_parsed updated_parsed : Entry → option TimeStruct).
Context (entry_title entry_link entry_summary : Entry → option string).
Context (datetime_utc : TimeStruct → result datetime).
Context (extract_image : Entry → result (option string)).
Context (get_publisher_name : string → Entry → result string).

(** [index()], over the registry [feeds] and at clock reading [now]:
    [fetch_all], then [filter_last_window] with its default arguments on the
    freshly built items, then the set of sources. *)
Definition index (feeds : list (string * string)) (now : Z)
    : result (page * heap) :=
  all_items <-
    fetch_all session_get feedparser_parse published_parsed updated_parsed
      entry_title entry_link entry_summary datetime_utc extract_image
      get_publisher_name feeds;
  r <- filter_last_window feeds now (refs all_items) 1 (Some 120)
         (objects all_items);
  sources <- map_r (getitem_source r.2) r.1;
  Ok ({| page_items := r.1;
         unique_sources := sorted_set sources;
         hours_window := HOURS_WINDOW |}, r.2).

End Index.

(** ** Sample stores *)

(** Microseconds in a day and in an hour. *)
Definition day : Z := 86400000000.
Definition hour : Z := 3600000000.

(** An item as [fetch_feed] builds it, published at UTC instant [t] when
    [published = Some t]. *)
Definition sample_item (feed_name url : string) (published : option Z) : Item :=
  {| source := feed_name; feed := feed_name; title := "headline";
     link := url; summary := "";
     dt_utc := (λ t, Datetime t UTC) <$> published;
     image := None; dt_ist := None |}.

(** The clock reading of the samples: ten days after the epoch. *)
Definition sample_now : Z := 10 * day.

(** Two Moneycontrol items with one link, one and two hours old. *)
Definition store_twins : heap :=
  {[ 0%nat := sample_item "Moneycontrol" "https://mc.example/a"
                (Some (sample_now - hour));
     1%nat := sample_item "Moneycontrol" "https://mc.example/a"
                (Some (sample_now - 2 * hour)) ]}.

(** Two items of The Hindu with one link, two and three days old. *)
Definition store_stale_twins : heap :=
  {[ 0%nat := sample_item "The Hindu - Markets" "https://th.example/x"
                (Some (sample_now - 2 * day));
     1%nat := sample_item "The Hindu - Markets" "https://th.example/x"
                (Some (sample_now - 3 * day)) ]}.

(** A mixed pool: two recent Moneycontrol items, an item of The Hindu that
    shares a link with one of them, an undated Google News item, two stale
    Business Standard items and an item of a feed that is not configured. *)
Definition store_mixed : heap :=
  {[ 0%nat := sample_item "Moneycontrol" "https://news.example/1"
                (Some (sample_now - hour));
     1%nat := sample_item "Moneycontrol" "https://news.example/2"
                (Some (sample_now - 3 * hour));
     2%nat := sample_item "The Hindu - Markets" "https://news.example/1"
                (Some (sample_now - 2 * hour));
     3%nat := sample_item "Google News - India Markets" "https://news.example/3"
                None;
     4%nat := sample_item "BS Hindi - Markets News" "https://news.example/4"
                (Some (sample_now - 3 * day));
     5%nat := sample_item "BS Hindi - Markets News" "https://news.example/5"
                (Some (sample_now - 2 * day));
     6%nat := sample_item "Elsewhere" "https://news.example/6"
                (Some (sample_now - 5 * day)) ]}.

Definition pool_mixed : list loc := [0; 1; 2; 3; 4; 5; 6]%nat.

(** A registry of two feeds, for the scenarios of the specification. *)
Definition two_feeds : list (string * string) :=
  [("F1", "https://f1.example/rss"); ("F2", "https://f2.example/rss")]%string.

(** ** Sample entries and a sample network *)

(** A [FeedParserDict] with the given keys. *)
Definition fp_dict (kvs : list (string * value)) : value :=
  VDict true (list_to_map kvs).

(** An entry with two [media_content] elements, an HTML link and an image
    link, and a source that has a title. *)
Definition sample_entry : value :=
  fp_dict
    [ ("media_content",
       VList [ fp_dict [("url", VStr "https://img.example/1.jpg")];
               fp_dict [("url", VStr "https://img.example/2.jpg")] ]);
      ("links",
       VList [ fp_dict [("type", VStr "text/html");
                        ("href", VStr "https://news.example/1")];
               fp_dict [("type", VStr "image/png");
                        ("href", VStr "https://img.example/3.png")] ]);
      ("source", fp_dict [("title", VStr "The Hindu")]) ]%string.

(** The reading of a sample feed entry: publication and update instants,
    title and link, each possibly missing. *)
Record raw_entry := RawEntry {
  raw_published : option Z;
  raw_updated : option Z;
  raw_title : option string;
  raw_link : option string
}.

(** A network in which Moneycontrol answers with two entries, The Hindu
    with two entries of which the second has a date out of range, and every
    other URL fails. *)
Definition sample_get (url : string) : result nat :=
  if decide (url = "http://www.moneycontrol.com/rss/latestnews.xml"%string)
  then Ok 0%nat
  else if decide (url = "https://www.thehindu.com/business/markets/feeder/default.rss"%string)
  then Ok 1%nat
  else Raise (Exception "ConnectionError").

Definition sample_parse (resp : nat) : result (list raw_entry) :=
  match resp with
  | 0%nat =>
      Ok [ RawEntry (Some (sample_now - hour)) None (Some "Sensex up"%string)
             (Some "https://mc.example/1"%string);
           RawEntry None None None None ]
  | _ =>
      Ok [ RawEntry (Some (sample_now - 2 * hour)) None
             (Some "Rupee steady"%string) (Some "https://th.example/0"%string);
           RawEntry (Some (-1)) None (Some "Nifty flat"%string)
             (Some "https://th.example/1"%string) ]
  end.

Definition sample_datetime (t : Z) : result datetime :=
  if t <? 0 then Raise (Exception "ValueError") else Ok (Datetime t UTC).

(** [fetch_feed] over the sample network. *)
Definition sample_fetch_feed : string → string → result (list Item) :=
  fetch_feed sample_get sample_parse raw_published raw_updated raw_title
    raw_link (λ _, None) sample_datetime (λ _, Ok None) (λ name _, Ok name).

(** * Facts *)

(** ** The stable descending sort *)

Section SortFacts.
Context {A : Type} (key : A → Z).

Lemma insert_desc_perm (x : A) (l : list A) : insert_desc key x l ≡ₚ x :: l.
Proof.
  induction l as [|y l IH]; simpl; [done|].
  destruct (key y <=? key x); [done|].
  rewrite IH. apply Permutation_swap.
Qed.

Lemma sort_desc_perm (l : list A) : sort_desc key l ≡ₚ l.
Proof.
  induction l as [|x l IH]; simpl; [done|].
  rewrite insert_desc_perm. by f_equiv.
Qed.

Lemma sort_desc_elem_of (x : A) (l : list A) : x ∈ sort_desc key l ↔ x ∈ l.
Proof. by rewrite sort_desc_perm. Qed.

Lemma insert_desc_sorted (x : A) (l : list A) :
  StronglySorted (desc key) l → StronglySorted (desc key) (insert_desc key x l).
Proof.
  induction 1 as [|y l Hs IH Hy]; simpl.
  - repeat constructor.
  - destruct (Z.leb_spec (key y) (key x)) as [Hle|Hlt].
    + constructor; [by constructor|].
      constructor; [done|].
      eapply Forall_impl; [exact Hy|]. unfold desc. intros z Hz. lia.
    + constructor; [done|].
      rewrite insert_desc_perm. constructor; [unfold desc; lia|done].
Qed.

Lemma sort_desc_sorted (l : list A) : StronglySorted (desc key) (sort_desc key l).
Proof.
  induction l as [|x l IH]; simpl; [constructor|].
  by apply insert_desc_sorted.
Qed.

Lemma sorted_desc_adjacent (l : list A) (i : nat) (a b : A) :
  StronglySorted (desc key) l →
  l !! i = Some a → l !! S i = Some b → key b ≤ key a.
Proof.
  intros Hs. revert i. induction Hs as [|y l Hs IH Hy]; intros i Ha Hb; [done|].
  destruct i as [|i]; simpl in *.
  - injection Ha as ->. rewrite Forall_forall in Hy.
    apply Hy. by eapply list_elem_of_lookup_2.
  - by eapply IH.
Qed.

Lemma sorted_desc_before (l : list A) (i j : nat) (a b : A) :
  StronglySorted (desc key) l →
  (i < j)%nat → l !! i = Some a → l !! j = Some b → key b ≤ key a.
Proof.
  intros Hs. revert i j.
  induction Hs as [|y l Hs IH Hy]; intros i j Hij Ha Hb; [done|].
  destruct j as [|j]; [lia|]. destruct i as [|i]; simpl in *.
  - injection Ha as ->. rewrite Forall_forall in Hy.
    apply Hy. by eapply list_elem_of_lookup_2.
  - eapply (IH i j); [lia|done..].
Qed.

Lemma sorted_desc_take (n : nat) (l : list A) :
  StronglySorted (desc key) l → StronglySorted (desc key) (take n l).
Proof.
  intros Hs. rewrite <- (take_drop n l) in Hs.
  by apply StronglySorted_app_1_l in Hs.
Qed.

End SortFacts.

Lemma sort_desc_fmap {A B} (key : A → Z) (key' : B → Z) (f : A → B) (l : list A) :
  (∀ a, key' (f a) = key a) →
  sort_desc key' (f <$> l) = f <$> sort_desc key l.
Proof.
  intros Hk. unfold sort_desc. induction l as [|x l IH]; [done|].
  rewrite fmap_cons. cbn [foldr]. rewrite IH.
  generalize (foldr (insert_desc key) [] l). intros s.
  induction s as [|y s IHs]; [done|]. rewrite fmap_cons. cbn [insert_desc].
  rewrite !Hk. destruct (key y <=? key x); simpl; [done|]. by rewrite IHs.
Qed.

Lemma slice_to_prefix {A} (l : list A) (n : Z) : ∃ k, slice_to l n = take k l.
Proof. unfold slice_to. destruct (0 <=? n); eauto. Qed.

Lemma trim_prefix {A} (g : option Z) (l : list A) : ∃ k, trim g l = take k l.
Proof.
  destruct g as [g|]; simpl.
  - destruct (g <? Z.of_nat (length l)).
    + apply slice_to_prefix.
    + exists (length l). by rewrite firstn_all.
  - exists (length l). by rewrite firstn_all.
Qed.

Lemma trim_nonneg {A} (g : Z) (l : list A) :
  0 ≤ g → trim (Some g) l = take (Z.to_nat g) l.
Proof.
  intros Hg. unfold trim, slice_to.
  destruct (Z.ltb_spec g (Z.of_nat (length l))) as [Hlt|Hge].
  - destruct (Z.leb_spec 0 g); [done|lia].
  - symmetry. apply take_ge. lia.
Qed.

(** ** Comprehensions that do not raise *)

Lemma map_r_ok {A B} (f : A → result B) (g : A → B) (l : list A) :
  Forall (λ x, f x = Ok (g x)) l → map_r f l = Ok (g <$> l).
Proof.
  induction 1 as [|x l Hx _ IH]; [done|].
  cbn [map_r]. rewrite Hx, IH. done.
Qed.

Lemma filter_r_ok {A} (p : A → result bool) (P : A → Prop)
    `{!∀ x, Decision (P x)} (l : list A) :
  Forall (λ x, ∃ b : bool, p x = Ok b ∧ (b = true ↔ P x)) l →
  filter_r p l = Ok (filter P l).
Proof.
  induction 1 as [|x l (b & Hx & Hb) _ IH]; [done|].
  cbn [filter_r]. rewrite Hx, IH. cbn [bind_r]. f_equal.
  destruct b.
  - rewrite filter_cons_True; [done|]. by apply Hb.
  - rewrite filter_cons_False; [done|]. intros HP. by apply Hb in HP.
Qed.

(** ** The first loop *)

Lemma stamp_idemp (d : datetime) (it : Item) : stamp d (stamp d it) = stamp d it.
Proof. unfold stamp. by destruct it as [? ? ? ? ? [?|] ? ?]. Qed.

Lemma stamp_same_but_dt_ist (d : datetime) (it : Item) :
  same_but_dt_ist it (stamp d it).
Proof.
  unfold stamp, same_but_dt_ist.
  destruct it as [? ? ? ? ? [?|] ? ?]; repeat split.
Qed.

Lemma stamp_dt_ist (d : datetime) (it : Item) :
  dt_ist (stamp d it) =
  Some (match dt_utc it with Some u => astimezone INDIA_TZ u | None => d end).
Proof. unfold stamp. by destruct (dt_utc it). Qed.

Lemma stamp_heap_lookup (d : datetime) (items : list loc) (h : heap) (l : loc) :
  stamp_heap d items h !! l =
  if decide (l ∈ items) then stamp d <$> h !! l else h !! l.
Proof.
  unfold stamp_heap. revert h.
  induction items as [|a items IH]; intros h; cbn [foldl].
  - rewrite decide_False; [done|]. apply not_elem_of_nil.
  - rewrite IH. destruct (decide (a = l)) as [->|Hne].
    + rewrite lookup_alter_eq. rewrite (decide_True (P := l ∈ l :: items)).
      2: apply elem_of_cons; by left.
      destruct (decide (l ∈ items)); [|done].
      destruct (h !! l) as [it|]; [|done]. simpl. by rewrite stamp_idemp.
    + rewrite lookup_alter_ne by done.
      destruct (decide (l ∈ items)) as [Hin|Hnin].
      * rewrite decide_True; [done|]. apply elem_of_cons; by right.
      * rewrite decide_False; [done|].
        rewrite elem_of_cons. intros [->|?]; done.
Qed.

Lemma stamp_loop_ok (d : datetime) (items : list loc) (h : heap) :
  pool_allocated h items →
  stamp_loop d items h = Ok (stamp_heap d items h).
Proof.
  unfold pool_allocated, stamp_heap. revert h.
  induction items as [|a items IH]; intros h Hal; [done|].
  apply Forall_cons in Hal as [[it Hit] Hal].
  cbn [stamp_loop foldl]. unfold deref. rewrite Hit. cbn [bind_r].
  assert (Heq : alter (stamp d) a h =
    match dt_utc it with
    | Some u => <[a := set_dt_ist (astimezone INDIA_TZ u) it]> h
    | None => <[a := set_dt_ist d it]> h
    end).
  { apply map_eq. intros l. destruct (decide (a = l)) as [->|Hne].
    - rewrite lookup_alter_eq, Hit. cbn [fmap option_fmap option_map].
      unfold stamp. destruct (dt_utc it); by rewrite lookup_insert_eq.
    - rewrite lookup_alter_ne by done.
      destruct (dt_utc it); by rewrite lookup_insert_ne. }
  rewrite <- Heq. apply IH.
  eapply Forall_impl; [exact Hal|]. intros l [x Hx]. simpl.
  destruct (decide (a = l)) as [->|Hne].
  - rewrite lookup_alter_eq, Hx. by eexists.
  - rewrite lookup_alter_ne by done. by eexists.
Qed.

Lemma stamp_heap_stamped (d : datetime) (items : list loc) (h : heap) :
  pool_allocated h items → pool_stamped (stamp_heap d items h) items.
Proof.
  unfold pool_allocated, pool_stamped. rewrite !Forall_forall.
  intros Hal l Hl. destruct (Hal l Hl) as [it Hit].
  exists (stamp d it). eexists. rewrite stamp_heap_lookup.
  rewrite decide_True by done. rewrite Hit. split; [done|]. apply stamp_dt_ist.
Qed.

Lemma stamp_heap_idemp (d : datetime) (items : list loc) (h : heap) :
  stamp_heap d items (stamp_heap d items h) = stamp_heap d items h.
Proof.
  apply map_eq. intros l. rewrite !stamp_heap_lookup.
  destruct (decide (l ∈ items)); [|done].
  destruct (h !! l); [|done]. simpl. by rewrite stamp_idemp.
Qed.

Lemma zip_decorate {A B} (g : A → B) (l : list A) :
  zip (g <$> l) l = (λ a, (g a, a)) <$> l.
Proof. induction l as [|x l IH]; [done|]. cbn. by f_equal. Qed.

(** ** Reading a stamped store *)

Section Readers.
Context (h : heap).

Lemma getitem_dt_ist_ok (ls : list loc) :
  pool_stamped h ls → Forall (λ l, getitem_dt_ist h l = Ok (dtime_at h l)) ls.
Proof.
  intros Hst. eapply Forall_impl; [exact Hst|].
  intros l (it & d & Hit & Hd).
  unfold getitem_dt_ist, deref, dtime_at. rewrite Hit. simpl. by rewrite Hd.
Qed.

Lemma getitem_feed_ok (ls : list loc) :
  pool_stamped h ls → Forall (λ l, getitem_feed h l = Ok (feed_at h l)) ls.
Proof.
  intros Hst. eapply Forall_impl; [exact Hst|].
  intros l (it & d & Hit & Hd).
  unfold getitem_feed, deref, feed_at. by rewrite Hit.
Qed.

Lemma getitem_key_ok (ls : list loc) :
  pool_stamped h ls →
  Forall (λ l, getitem_key h l = Ok (key_of (feed_at h) (link_at h) l)) ls.
Proof.
  intros Hst. eapply Forall_impl; [exact Hst|].
  intros l (it & d & Hit & Hd).
  unfold getitem_key, getitem_feed, getitem_link, deref, key_of, feed_at, link_at.
  by rewrite Hit.
Qed.

Lemma sort_by_dt_ist_ok (ls : list loc) :
  pool_stamped h ls → sort_by_dt_ist h ls = Ok (sort_desc (dt_at h) ls).
Proof.
  intros Hst. unfold sort_by_dt_ist.
  rewrite (map_r_ok _ (dtime_at h)) by by apply getitem_dt_ist_ok.
  cbn [bind_r]. f_equal.
  rewrite zip_decorate.
  rewrite (sort_desc_fmap (dt_at h)) by done.
  rewrite <- list_fmap_compose. apply list_fmap_id.
Qed.

Lemma items_of_feed_ok (f : string) (ls : list loc) :
  pool_stamped h ls → items_of_feed h f ls = Ok (of_feed (feed_at h) f ls).
Proof.
  intros Hst. unfold items_of_feed, of_feed. apply filter_r_ok.
  eapply Forall_impl; [by apply getitem_feed_ok|].
  intros l Hl. simpl in Hl. rewrite Hl. cbn [bind_r]. eexists. split; [done|].
  apply bool_decide_eq_true.
Qed.

End Readers.

(** ** The fallback passes *)

Lemma foldl_invariant {S X} (step : S → X → S) (P : S → Prop) (xs : list X) (s : S) :
  P s → (∀ s x, P s → P (step s x)) → P (foldl step s xs).
Proof.
  intros Hs Hstep. revert s Hs.
  induction xs as [|x xs IH]; intros s Hs; [done|].
  cbn [foldl]. apply IH. by apply Hstep.
Qed.

Lemma filter_none {A} (P : A → Prop) `{!∀ x, Decision (P x)} (l : list A) :
  Forall (λ a, ¬ P a) l → filter P l = [].
Proof.
  induction 1 as [|x l Hx _ IH]; [done|]. by rewrite filter_cons_False.
Qed.

Lemma filter_take_length {A} (P : A → Prop) `{!∀ x, Decision (P x)}
    (n : nat) (l : list A) :
  (length (filter P (take n l)) ≤ length (filter P l))%nat.
Proof.
  rewrite <- (take_drop n l) at 2. rewrite filter_app, length_app. lia.
Qed.

Lemma size_list_to_set_le (l : list string) :
  (size (list_to_set (C := gset string) l) ≤ length l)%nat.
Proof.
  induction l as [|x l IH]; cbn [list_to_set foldr length].
  - by rewrite size_empty.
  - rewrite size_union_alt, size_singleton.
    assert (size (list_to_set (C := gset string) l ∖ {[x]}) ≤
            size (list_to_set (C := gset string) l))%nat; [|lia].
    apply subseteq_size. apply subseteq_difference_l. done.
Qed.

Section SelectionFacts.
Context {A : Type} (dt : A → Z) (feed_of link_of : A → string).

Local Abbreviation key := (key_of feed_of link_of).
Local Abbreviation from := (of_feed feed_of).
Local Abbreviation fallback_on := (fallback feed_of link_of).
Local Abbreviation pass := (feed_pass dt feed_of link_of).

Lemma of_feed_app (f : string) (l k : list A) :
  from f (l ++ k) = from f l ++ from f k.
Proof. apply filter_app. Qed.

Lemma of_feed_all (f : string) (l : list A) :
  Forall (λ a, feed_of a = f) l → from f l = l.
Proof.
  induction 1 as [|x l Hx _ IH]; [done|].
  unfold of_feed in *. rewrite filter_cons_True by done. by f_equal.
Qed.

(** What one run of the inner loop appends: a sub-sequence of the
    candidates, with fresh and pairwise distinct keys, that stops at the
    floor. *)
Lemma fallback_spec (limit : Z) (cands final : list A)
    (seen : gset (string * string)) (already : list A) :
  ∃ added,
    fallback_on limit cands final seen already =
      (final ++ added, list_to_set (key <$> added) ∪ seen) ∧
    sublist added cands ∧
    NoDup (key <$> added) ∧
    (∀ a, a ∈ added → key a ∉ seen) ∧
    (Z.of_nat (length already) < limit →
       Z.of_nat (length already + length added) ≤ limit) ∧
    (limit ≤ Z.of_nat (length already + length added) ∨
     ∀ c, c ∈ cands → key c ∈ list_to_set (C := gset _) (key <$> added) ∪ seen).
Proof.
  revert final seen already.
  induction cands as [|cand rest IH]; intros final seen already.
  - exists []. cbn. rewrite app_nil_r, (left_id_L ∅ (∪)). split_and!.
    + done.
    + done.
    + apply NoDup_nil_2.
    + intros a Ha. by apply elem_of_nil in Ha.
    + lia.
    + right. intros c Hc. by apply elem_of_nil in Hc.
  - cbn [fallback]. destruct (decide (key cand ∈ seen)) as [Hin|Hnin].
    + destruct (IH final seen already)
        as (added & -> & Hsub & Hnd & Hfresh & Hle & Hfl).
      exists added. split_and!.
      * done.
      * by apply sublist_cons.
      * done.
      * done.
      * done.
      * destruct Hfl as [?|Hall]; [by left|right].
        intros c [->|Hc]%elem_of_cons; [by apply elem_of_union_r|by apply Hall].
    + rewrite length_app. cbn [length].
      destruct (Z.leb_spec limit (Z.of_nat (length already + 1))) as [Hstop|Hgo].
      * exists [cand]. cbn. rewrite (right_id_L ∅ (∪)). split_and!.
        -- done.
        -- apply sublist_skip, sublist_nil_l.
        -- apply NoDup_singleton.
        -- by intros a ->%list_elem_of_singleton.
        -- intros. lia.
        -- left. lia.
      * destruct (IH (final ++ [cand]) ({[key cand]} ∪ seen) (already ++ [cand]))
          as (added & -> & Hsub & Hnd & Hfresh & Hle & Hfl).
        rewrite length_app in Hle, Hfl. cbn [length] in Hle, Hfl.
        exists (cand :: added). rewrite <- app_assoc. cbn. split_and!.
        -- f_equal. rewrite (assoc_L (∪)). f_equal. apply (comm_L (∪)).
        -- by apply sublist_skip.
        -- apply NoDup_cons. split; [|done].
           intros (a & Hk & Ha)%list_elem_of_fmap.
           apply Hfresh in Ha. apply Ha. rewrite Hk.
           apply elem_of_union_l. by apply elem_of_singleton.
        -- intros a [->|Ha]%elem_of_cons; [done|].
           apply Hfresh in Ha. intros Hs. apply Ha. by apply elem_of_union_r.
        -- intros _. lia.
        -- destruct Hfl as [?|Hall]; [left; lia|right].
           intros c [->|Hc]%elem_of_cons.
           { apply elem_of_union_l, elem_of_union_l. by apply elem_of_singleton. }
           specialize (Hall c Hc). rewrite !elem_of_union in Hall |- *. tauto.
Qed.

(** What one pass for feed [f] appends. *)
Lemma feed_pass_spec (pool : list A) (limit : Z)
    (st : list A * gset (string * string)) (f : string) :
  ∃ added,
    pass pool limit st f =
      (st.1 ++ added, list_to_set (key <$> added) ∪ st.2) ∧
    Forall (λ a, a ∈ pool ∧ feed_of a = f) added ∧
    NoDup (key <$> added) ∧
    (∀ a, a ∈ added → key a ∉ st.2) ∧
    (added = [] ∨ Z.of_nat (length (from f (st.1 ++ added))) ≤ limit) ∧
    (limit ≤ Z.of_nat (length (from f (st.1 ++ added))) ∨
     ∀ c, c ∈ from f pool →
          key c ∈ list_to_set (C := gset _) (key <$> added) ∪ st.2).
Proof.
  assert (Hst : st = (st.1 ++ [], list_to_set (key <$> []) ∪ st.2)).
  { cbn. rewrite app_nil_r, (left_id_L ∅ (∪)). by destruct st. }
  unfold feed_pass. destruct (from f pool) as [|c0 cs] eqn:Hpool.
  - exists []. split_and!.
    + done.
    + constructor.
    + apply NoDup_nil_2.
    + intros a Ha. by apply elem_of_nil in Ha.
    + by left.
    + right. intros c Hc. by apply elem_of_nil in Hc.
  - destruct (Z.leb_spec limit (Z.of_nat (length (from f st.1)))) as [Hsat|Hneed].
    + exists []. split_and!.
      * done.
      * constructor.
      * apply NoDup_nil_2.
      * intros a Ha. by apply elem_of_nil in Ha.
      * by left.
      * left. by rewrite app_nil_r.
    + destruct (fallback_spec limit (sort_desc dt (c0 :: cs)) st.1 st.2
                  (from f st.1))
        as (added & -> & Hsub & Hnd & Hfresh & Hle & Hfl).
      assert (Hadded : Forall (λ a, a ∈ pool ∧ feed_of a = f) added).
      { apply Forall_forall. intros a Ha.
        assert (Hin : a ∈ from f pool).
        { rewrite Hpool. apply (sort_desc_elem_of dt).
          eapply elem_of_submseteq; [exact Ha|]. by apply sublist_submseteq. }
        by apply list_elem_of_filter in Hin as [? ?]. }
      assert (Hcount : from f (st.1 ++ added) = from f st.1 ++ added).
      { rewrite of_feed_app. f_equal. apply of_feed_all.
        eapply Forall_impl; [exact Hadded|]. by intros a [_ ?]. }
      exists added. rewrite Hcount, length_app. split_and!.
      * done.
      * done.
      * done.
      * done.
      * right. specialize (Hle Hneed). lia.
      * destruct Hfl as [?|Hall]; [left; lia|right].
        intros c Hc. apply Hall. by apply (sort_desc_elem_of dt).
Qed.

(** Invariants of the loop over the registry. *)

Lemma passes_extend (pool : list A) (limit : Z) (fs : list string)
    (st : list A * gset (string * string)) :
  ∃ added, (foldl (pass pool limit) st fs).1 = st.1 ++ added ∧
           Forall (λ a, a ∈ pool) added.
Proof.
  revert st. induction fs as [|f fs IH]; intros st; cbn [foldl].
  - exists []. by rewrite app_nil_r.
  - destruct (feed_pass_spec pool limit st f) as (a1 & Heq & Ha1 & _).
    destruct (IH (pass pool limit st f)) as (a2 & -> & Ha2).
    exists (a1 ++ a2). rewrite Heq. cbn. rewrite app_assoc. split; [done|].
    apply Forall_app. split; [|done].
    eapply Forall_impl; [exact Ha1|]. by intros a [? _].
Qed.

Lemma pass_seen (pool : list A) (limit : Z)
    (st : list A * gset (string * string)) (f : string) :
  st.2 = list_to_set (key <$> st.1) →
  (pass pool limit st f).2 = list_to_set (key <$> (pass pool limit st f).1).
Proof.
  intros Hst. destruct (feed_pass_spec pool limit st f) as (added & -> & _).
  cbn. rewrite fmap_app, list_to_set_app_L, Hst. apply (comm_L (∪)).
Qed.

Lemma passes_seen (pool : list A) (limit : Z) (fs : list string)
    (st : list A * gset (string * string)) :
  st.2 = list_to_set (key <$> st.1) →
  (foldl (pass pool limit) st fs).2 =
    list_to_set (key <$> (foldl (pass pool limit) st fs).1).
Proof.
  intros Hst.
  apply (foldl_invariant _ (λ s, s.2 = list_to_set (key <$> s.1))); [done|].
  intros s f. apply pass_seen.
Qed.

Lemma passes_NoDup (pool : list A) (limit : Z) (fs : list string)
    (st : list A * gset (string * string)) :
  st.2 = list_to_set (key <$> st.1) →
  NoDup (key <$> st.1) →
  NoDup (key <$> (foldl (pass pool limit) st fs).1).
Proof.
  intros Hst Hnd.
  apply (foldl_invariant _
    (λ s, s.2 = list_to_set (key <$> s.1) ∧ NoDup (key <$> s.1))); [done|].
  intros s f [Hs Hn]. split; [by apply pass_seen|].
  destruct (feed_pass_spec pool limit s f) as (added & -> & _ & Hnd' & Hfresh & _).
  cbn. rewrite fmap_app. apply NoDup_app. split_and!; [done| |done].
  intros k Hk (a & -> & Ha)%list_elem_of_fmap.
  apply (Hfresh a Ha). rewrite Hs. by apply elem_of_list_to_set.
Qed.

Lemma stale_of_feed_le (cutoff : Z) (f : string) (l : list A) :
  (length (stale_of_feed dt feed_of cutoff f l) ≤ length (from f l))%nat.
Proof.
  unfold stale_of_feed, of_feed.
  rewrite <- (list_filter_filter_l _ (λ a, feed_of a = f)) by by intros a [? _].
  apply length_filter.
Qed.

Lemma passes_stale (pool : list A) (cutoff limit : Z) (fs : list string)
    (st : list A * gset (string * string)) :
  (∀ f, Z.of_nat (length (stale_of_feed dt feed_of cutoff f st.1)) ≤ limit) →
  ∀ f, Z.of_nat (length (stale_of_feed dt feed_of cutoff f
                           (foldl (pass pool limit) st fs).1)) ≤ limit.
Proof.
  intros Hst.
  apply (foldl_invariant _
    (λ s, ∀ f, Z.of_nat (length (stale_of_feed dt feed_of cutoff f s.1)) ≤ limit));
    [done|].
  intros s g Hs f.
  destruct (feed_pass_spec pool limit s g) as (added & -> & Hadd & _ & _ & Hle & _).
  cbn [fst]. destruct Hle as [->|Hle]; [by rewrite app_nil_r|].
  destruct (decide (f = g)) as [->|Hne].
  - pose proof (stale_of_feed_le cutoff g (s.1 ++ added)). lia.
  - unfold stale_of_feed. rewrite filter_app, length_app.
    replace (filter (λ a, feed_of a = f ∧ dt a < cutoff) added) with (@nil A).
    { specialize (Hs f). unfold stale_of_feed in Hs. cbn [length]. lia. }
    symmetry. apply filter_none.
    eapply Forall_impl; [exact Hadd|]. intros a [_ Ha] [Hf _]. congruence.
Qed.

Lemma pass_floor (pool : list A) (limit : Z)
    (st : list A * gset (string * string)) (f : string) :
  st.2 = list_to_set (key <$> st.1) →
  Z.min limit (Z.of_nat (size (links_of_feed feed_of link_of f pool))) ≤
    Z.of_nat (length (from f (pass pool limit st f).1)).
Proof.
  intros Hst.
  destruct (feed_pass_spec pool limit st f) as (added & -> & _ & _ & _ & _ & Hfl).
  cbn [fst]. destruct Hfl as [Hlim|Hall]; [lia|].
  assert (Hsub : links_of_feed feed_of link_of f pool ⊆
                 list_to_set (link_of <$> from f (st.1 ++ added))).
  { intros x Hx. apply elem_of_list_to_set in Hx.
    apply list_elem_of_fmap in Hx as (c & -> & Hc).
    specialize (Hall c Hc).
    rewrite Hst, <- list_to_set_app_L, <- fmap_app in Hall.
    apply elem_of_list_to_set, list_elem_of_fmap in Hall as (a & Hk & Ha).
    apply list_elem_of_filter in Hc as [Hcf _].
    injection Hk as Hfeed Hlink.
    apply elem_of_list_to_set, list_elem_of_fmap. exists a. split; [done|].
    apply list_elem_of_filter. split; [congruence|].
    rewrite elem_of_app in Ha |- *. tauto. }
  apply subseteq_size in Hsub.
  pose proof (size_list_to_set_le (link_of <$> from f (st.1 ++ added))) as Hle.
  rewrite length_fmap in Hle. lia.
Qed.

Lemma passes_floor (pool : list A) (limit : Z) (fs : list string)
    (st : list A * gset (string * string)) (f : string) :
  st.2 = list_to_set (key <$> st.1) →
  f ∈ fs →
  Z.min limit (Z.of_nat (size (links_of_feed feed_of link_of f pool))) ≤
    Z.of_nat (length (from f (foldl (pass pool limit) st fs).1)).
Proof.
  revert st. induction fs as [|g fs IH]; intros st Hst Hf.
  - by apply elem_of_nil in Hf.
  - cbn [foldl]. apply elem_of_cons in Hf as [->|Hf].
    + destruct (passes_extend pool limit fs (pass pool limit st g))
        as (added & -> & _).
      pose proof (pass_floor pool limit st g Hst).
      rewrite of_feed_app, length_app. lia.
    + apply IH; [|done]. by apply pass_seen.
Qed.

(** ** What [select] returns *)

Section Select.
Context (feed_names : list string) (cutoff limit : Z) (pool : list A).

Local Abbreviation ww := (window dt cutoff pool).
Local Abbreviation selected := (select dt feed_of link_of feed_names cutoff limit pool).

Lemma window_elem_of (a : A) : a ∈ ww ↔ cutoff ≤ dt a ∧ a ∈ pool.
Proof.
  unfold window. by rewrite (sort_desc_elem_of dt), list_elem_of_filter.
Qed.

Lemma select_sorted : StronglySorted (desc dt) selected.
Proof. apply sort_desc_sorted. Qed.

Lemma select_elem_of_pool (a : A) : a ∈ selected → a ∈ pool.
Proof.
  unfold select, floors. rewrite (sort_desc_elem_of dt).
  destruct (passes_extend pool limit feed_names (ww, list_to_set (key <$> ww)))
    as (added & -> & Hadd).
  cbn [fst]. intros [Ha|Ha]%elem_of_app.
  - by apply window_elem_of in Ha as [_ ?].
  - rewrite Forall_forall in Hadd. by apply Hadd.
Qed.

Lemma select_window (a : A) : a ∈ pool → cutoff ≤ dt a → a ∈ selected.
Proof.
  intros Hin Hdt. unfold select, floors. rewrite (sort_desc_elem_of dt).
  destruct (passes_extend pool limit feed_names (ww, list_to_set (key <$> ww)))
    as (added & -> & _).
  cbn [fst]. apply elem_of_app. left. by apply window_elem_of.
Qed.

Lemma select_NoDup :
  NoDup (key <$> filter (λ a, cutoff ≤ dt a) pool) → NoDup (key <$> selected).
Proof.
  intros Hnd. unfold select. rewrite (sort_desc_perm dt).
  unfold floors. apply passes_NoDup; [done|].
  cbn [fst]. unfold window. by rewrite (sort_desc_perm dt).
Qed.

Lemma select_stale (f : string) :
  0 ≤ limit →
  Z.of_nat (length (stale_of_feed dt feed_of cutoff f selected)) ≤ limit.
Proof.
  intros Hlim. unfold select, stale_of_feed. rewrite (sort_desc_perm dt).
  unfold floors. apply passes_stale. intros g. cbn [fst].
  unfold stale_of_feed. rewrite filter_none; [done|].
  apply Forall_forall. intros a Ha [_ Hold].
  apply window_elem_of in Ha as [Hnew _]. lia.
Qed.

Lemma select_floor (f : string) :
  f ∈ feed_names →
  Z.min limit (Z.of_nat (size (links_of_feed feed_of link_of f pool))) ≤
    Z.of_nat (length (from f selected)).
Proof.
  intros Hf. unfold select, of_feed. rewrite (sort_desc_perm dt).
  unfold floors. by apply passes_floor.
Qed.

End Select.

End SelectionFacts.

(** ** [filter_last_window] computes [select] on the stamped store *)

Section Refinement.
Context (h : heap).

Local Abbreviation key := (key_of (feed_at h) (link_at h)).

Lemma pool_stamped_app (l k : list loc) :
  pool_stamped h (l ++ k) ↔ pool_stamped h l ∧ pool_stamped h k.
Proof. apply Forall_app. Qed.

Lemma pool_stamped_subseteq (l k : list loc) :
  (∀ x, x ∈ l → x ∈ k) → pool_stamped h k → pool_stamped h l.
Proof.
  unfold pool_stamped. rewrite !Forall_forall. intros Hsub Hk x Hx.
  apply Hk, Hsub, Hx.
Qed.

Lemma fallback_loop_ok (limit : Z) (cands final : list loc)
    (seen : gset (string * string)) (already : list loc) :
  pool_stamped h cands →
  fallback_loop h limit cands final seen already =
  Ok (fallback (feed_at h) (link_at h) limit cands final seen already).
Proof.
  intros Hst. revert final seen already.
  induction Hst as [|cand rest Hc Hrest IH]; intros final seen already; [done|].
  cbn [fallback_loop fallback].
  assert (Hk : getitem_key h cand = Ok (key cand)).
  { assert (Hone : pool_stamped h [cand]) by by constructor.
    apply getitem_key_ok in Hone. by apply Forall_inv in Hone. }
  rewrite Hk. cbn [bind_r].
  destruct (decide (key cand ∈ seen)); [apply IH|].
  destruct (limit <=? Z.of_nat (length (already ++ [cand]))); [done|apply IH].
Qed.

Lemma feed_step_ok (items : list loc) (limit : Z)
    (st : list loc * gset (string * string)) (f : string) :
  pool_stamped h items → pool_stamped h st.1 →
  feed_step h items limit st f =
  Ok (feed_pass (dt_at h) (feed_at h) (link_at h) items limit st f).
Proof.
  intros Hitems Hst. unfold feed_step, feed_pass. destruct st as [final seen].
  cbn [fst snd] in *.
  rewrite items_of_feed_ok by done. cbn [bind_r].
  destruct (of_feed (feed_at h) f items) as [|c0 cs] eqn:Hpool; [done|].
  rewrite items_of_feed_ok by done. cbn [bind_r].
  destruct (limit <=? Z.of_nat (length (of_feed (feed_at h) f final))); [done|].
  assert (Hcands : pool_stamped h (c0 :: cs)).
  { eapply pool_stamped_subseteq; [|exact Hitems].
    intros x Hx. rewrite <- Hpool in Hx.
    by apply list_elem_of_filter in Hx as [_ ?]. }
  rewrite sort_by_dt_ist_ok by done. cbn [bind_r].
  apply fallback_loop_ok.
  eapply pool_stamped_subseteq; [|exact Hcands].
  intros x. by rewrite (sort_desc_elem_of (dt_at h)).
Qed.

Lemma feeds_loop_ok (items : list loc) (limit : Z) (fs : list string)
    (st : list loc * gset (string * string)) :
  pool_stamped h items → pool_stamped h st.1 →
  feeds_loop h items limit fs st =
  Ok (foldl (feed_pass (dt_at h) (feed_at h) (link_at h) items limit) st fs).
Proof.
  intros Hitems. revert st.
  induction fs as [|f fs IH]; intros st Hst; [done|].
  cbn [feeds_loop foldl]. rewrite feed_step_ok by done. cbn [bind_r].
  apply IH.
  destruct (passes_extend (dt_at h) (feed_at h) (link_at h) items limit [f] st)
    as (added & Heq & Hadd).
  cbn [foldl] in Heq. rewrite Heq. apply pool_stamped_app. split; [done|].
  unfold pool_stamped in *. rewrite Forall_forall in *.
  intros x Hx. apply Hitems, Hadd, Hx.
Qed.

Lemma debug_counts_ok (ls : list loc) (cf cs : gmap string nat) :
  pool_stamped h ls → ∃ c, debug_counts h ls cf cs = Ok c.
Proof.
  intros Hst. revert cf cs.
  induction Hst as [|l ls (it & d & Hit & _) _ IH]; intros cf cs.
  - by eexists.
  - cbn [debug_counts]. unfold getitem_feed, getitem_source, deref.
    rewrite Hit. cbn [bind_r]. apply IH.
Qed.

Lemma trim_elem_of {A} (g : option Z) (l : list A) (x : A) :
  x ∈ trim g l → x ∈ l.
Proof.
  destruct (trim_prefix g l) as [k ->].
  intros Hx. eapply elem_of_submseteq; [exact Hx|].
  apply sublist_submseteq, sublist_take.
Qed.

End Refinement.

(** The returned list is [select] over the stamped store, trimmed; the
    store on exit is the stamped store. *)
Lemma filter_last_window_select (feeds : list (string * string)) (now : Z)
    (items : list loc) (limit : Z) (glimit : option Z) (h : heap) :
  pool_allocated h items →
  let h' := stamp_heap (now_ist now) items h in
  filter_last_window feeds now items limit glimit h =
  Ok (trim glimit
        (select (dt_at h') (feed_at h') (link_at h') feeds.*1 (cutoff now)
           limit items),
      h').
Proof.
  intros Hal h'. unfold filter_last_window.
  rewrite stamp_loop_ok by done. cbn [bind_r]. fold h'.
  assert (Hst : pool_stamped h' items) by by apply stamp_heap_stamped.
  rewrite (filter_r_ok _ (λ l, cutoff now ≤ dt_at h' l)).
  2:{ eapply Forall_impl; [by apply getitem_dt_ist_ok|].
      intros l Hl. simpl in Hl. rewrite Hl. cbn [bind_r]. eexists. split; [done|].
      unfold dt_ge, cutoff, dt_at. apply Z.leb_le. }
  cbn [bind_r].
  assert (Hww : pool_stamped h' (filter (λ l, cutoff now ≤ dt_at h' l) items)).
  { eapply pool_stamped_subseteq; [|exact Hst].
    intros x Hx. by apply list_elem_of_filter in Hx as [_ ?]. }
  rewrite sort_by_dt_ist_ok by done. cbn [bind_r].
  fold (window (dt_at h') (cutoff now) items).
  assert (Hww' : pool_stamped h' (window (dt_at h') (cutoff now) items)).
  { eapply pool_stamped_subseteq; [|exact Hww].
    intros x. unfold window. by rewrite (sort_desc_elem_of (dt_at h')). }
  rewrite (map_r_ok _ (key_of (feed_at h') (link_at h')))
    by by apply getitem_key_ok.
  cbn [bind_r]. rewrite feeds_loop_ok by done. cbn [bind_r].
  fold (floors (dt_at h') (feed_at h') (link_at h') feeds.*1 limit items
          (window (dt_at h') (cutoff now) items)).
  assert (Hfl : pool_stamped h'
    (floors (dt_at h') (feed_at h') (link_at h') feeds.*1 limit items
       (window (dt_at h') (cutoff now) items)).1).
  { unfold floors.
    destruct (passes_extend (dt_at h') (feed_at h') (link_at h') items limit
                feeds.*1 (window (dt_at h') (cutoff now) items,
                          list_to_set (key_of (feed_at h') (link_at h') <$>
                                         window (dt_at h') (cutoff now) items)))
      as (added & -> & Hadd).
    apply pool_stamped_app. split; [done|].
    unfold pool_stamped in *. rewrite Forall_forall in *.
    intros x Hx. apply Hst, Hadd, Hx. }
  rewrite sort_by_dt_ist_ok by done. cbn [bind_r].
  fold (select (dt_at h') (feed_at h') (link_at h') feeds.*1 (cutoff now)
          limit items).
  edestruct (debug_counts_ok h') as [c ->]; [|done].
  eapply pool_stamped_subseteq; [|exact Hfl].
  intros x Hx%trim_elem_of. unfold select in Hx.
  by rewrite (sort_desc_elem_of (dt_at h')) in Hx.
Qed.

(** ** The store on exit *)

Lemma store_after_lookup_in (now : Z) (items : list loc) (h : heap)
    (l : loc) (it : Item) :
  l ∈ items → h !! l = Some it →
  store_after now items h !! l = Some (stamp (now_ist now) it).
Proof.
  intros Hin Hit. unfold store_after. rewrite stamp_heap_lookup.
  rewrite decide_True by done. by rewrite Hit.
Qed.

Lemma store_after_lookup_out (now : Z) (items : list loc) (h : heap) (l : loc) :
  l ∉ items → store_after now items h !! l = h !! l.
Proof.
  intros Hout. unfold store_after. rewrite stamp_heap_lookup.
  by rewrite decide_False.
Qed.

Lemma store_after_allocated (now : Z) (items : list loc) (h : heap) :
  pool_allocated h items → pool_allocated (store_after now items h) items.
Proof.
  intros Hal. apply (stamp_heap_stamped (now_ist now)) in Hal.
  eapply Forall_impl; [exact Hal|]. intros l (it & _ & Hit & _). by eexists.
Qed.

Lemma store_after_idemp (now : Z) (items : list loc) (h : heap) :
  store_after now items (store_after now items h) = store_after now items h.
Proof. apply stamp_heap_idemp. Qed.

Lemma cutoff_before_now (now : Z) : cutoff now < now.
Proof. unfold cutoff, minus_hours, HOURS_WINDOW. simpl. lia. Qed.

Lemma run_select (feeds : list (string * string)) (now : Z)
    (items : list loc) (limit : Z) (glimit : option Z) (h : heap) :
  pool_allocated h items →
  filter_last_window feeds now items limit glimit h =
  Ok (trim glimit
        (select (dt_at (store_after now items h))
           (feed_at (store_after now items h))
           (link_at (store_after now items h)) feeds.*1 (cutoff now)
           limit items),
      store_after now items h).
Proof. apply filter_last_window_select. Qed.

Lemma run_output_in_pool (feeds : list (string * string)) (now : Z)
    (items : list loc) (limit : Z) (glimit : option Z) (h : heap) (l : loc) :
  l ∈ trim glimit
        (select (dt_at (store_after now items h))
           (feed_at (store_after now items h))
           (link_at (store_after now items h)) feeds.*1 (cutoff now)
           limit items) →
  l ∈ items.
Proof. intros Hl%trim_elem_of. by apply select_elem_of_pool in Hl. Qed.

Lemma run_output_sorted (feeds : list (string * string)) (now : Z)
    (items : list loc) (limit : Z) (glimit : option Z) (h : heap) :
  StronglySorted (desc (dt_at (store_after now items h)))
    (trim glimit
        (select (dt_at (store_after now items h))
           (feed_at (store_after now items h))
           (link_at (store_after now items h)) feeds.*1 (cutoff now)
           limit items)).
Proof.
  destruct (trim_prefix glimit
    (select (dt_at (store_after now items h))
       (feed_at (store_after now items h))
       (link_at (store_after now items h)) feeds.*1 (cutoff now)
       limit items)) as [k ->].
  apply sorted_desc_take, select_sorted.
Qed.

Lemma read_dt_ist_after (now : Z) (items : list loc) (h : heap) (l : loc) :
  pool_allocated h items → l ∈ items →
  getitem_dt_ist (store_after now items h) l =
  Ok (dtime_at (store_after now items h) l).
Proof.
  intros Hal Hl. apply (stamp_heap_stamped (now_ist now)) in Hal.
  apply getitem_dt_ist_ok in Hal. rewrite Forall_forall in Hal. by apply Hal.
Qed.

(** ** Feed and link are not touched by the call *)

Lemma feed_at_store_after (now : Z) (items : list loc) (h : heap) (l : loc) :
  feed_at (store_after now items h) l = feed_at h l.
Proof.
  unfold feed_at, store_after. rewrite stamp_heap_lookup.
  destruct (decide (l ∈ items)); [|done].
  destruct (h !! l) as [it|]; [|done]. cbn.
  by destruct (stamp_same_but_dt_ist (now_ist now) it) as (_ & <- & _).
Qed.

Lemma link_at_store_after (now : Z) (items : list loc) (h : heap) (l : loc) :
  link_at (store_after now items h) l = link_at h l.
Proof.
  unfold link_at, store_after. rewrite stamp_heap_lookup.
  destruct (decide (l ∈ items)); [|done].
  destruct (h !! l) as [it|]; [|done]. cbn.
  by destruct (stamp_same_but_dt_ist (now_ist now) it) as (_ & _ & _ & <- & _).
Qed.

Lemma links_of_feed_store_after (now : Z) (items : list loc) (h : heap)
    (f : string) (ls : list loc) :
  links_of_feed (feed_at (store_after now items h))
    (link_at (store_after now items h)) f ls =
  links_of_feed (feed_at h) (link_at h) f ls.
Proof.
  unfold links_of_feed, of_feed. f_equal.
  rewrite (list_filter_iff _ (λ a, feed_at h a = f)).
  2:{ intros l. by rewrite feed_at_store_after. }
  apply list_fmap_ext. intros _ l _. apply link_at_store_after.
Qed.

Lemma of_feed_take_shortfall {A} (feed_of : A → string) (f : string)
    (k : nat) (l : list A) :
  (length (of_feed feed_of f l) + length (take k l) ≤
   length (of_feed feed_of f (take k l)) + length l)%nat.
Proof.
  rewrite <- (take_drop k l) at 1. unfold of_feed.
  rewrite filter_app, length_app.
  pose proof (length_filter (λ a, feed_of a = f) (drop k l)) as Hd.
  pose proof (f_equal length (take_drop k l)) as Hlen.
  rewrite length_app in Hlen. lia.
Qed.

(** ** The well-formedness hypothesis, and the scenarios of the specification *)

(** The pool that [index] hands over satisfies [pool_allocated]. *)
Lemma refs_allocated (all_items : list Item) :
  pool_allocated (objects all_items) (refs all_items).
Proof.
  unfold pool_allocated, objects, refs. apply Forall_forall.
  intros l Hl%elem_of_seq. rewrite lookup_map_seq_0.
  apply lookup_lt_is_Some. lia.
Qed.

Lemma pool_mixed_allocated : pool_allocated store_mixed pool_mixed.
Proof.
  unfold pool_allocated, pool_mixed.
  repeat (apply Forall_cons; split; [eexists; vm_compute; reflexivity|]).
  apply Forall_nil_2.
Defined.

(** Scenario A: an empty pool gives an empty output. *)
Example scenario_empty_pool :
  filter_last_window two_feeds sample_now (refs []) 1 (Some 120) (objects []) =
  Ok ([], objects []).
Proof. vm_compute. reflexivity. Qed.

(** Scenario B: three items of F1 inside the window come back newest first. *)
Example scenario_all_recent :
  let all_items :=
    [ sample_item "F1" "a" (Some (sample_now - 3 * hour));
      sample_item "F1" "b" (Some (sample_now - hour));
      sample_item "F1" "c" (Some (sample_now - 2 * hour)) ] in
  ∃ h', filter_last_window two_feeds sample_now (refs all_items) 1 (Some 120)
          (objects all_items) = Ok ([1; 2; 0]%nat, h').
Proof. eexists. vm_compute. reflexivity. Qed.

(** Scenario C: the only item of F2 is three days old and is returned. *)
Example scenario_fallback :
  let all_items := [ sample_item "F2" "a" (Some (sample_now - 3 * day)) ] in
  ∃ h', filter_last_window two_feeds sample_now (refs all_items) 1 (Some 120)
          (objects all_items) = Ok ([0]%nat, h').
Proof. eexists. vm_compute. reflexivity. Qed.

(** Scenario E: with [global_limit = 2] the two most recent of five remain. *)
Example scenario_global_limit :
  let all_items :=
    [ sample_item "F1" "a" (Some (sample_now - 5 * hour));
      sample_item "F2" "b" (Some (sample_now - hour));
      sample_item "F1" "c" (Some (sample_now - 2 * hour));
      sample_item "F2" "d" (Some (sample_now - 4 * hour));
      sample_item "F1" "e" (Some (sample_now - 3 * hour)) ] in
  ∃ h', filter_last_window two_feeds sample_now (refs all_items) 1 (Some 2)
          (objects all_items) = Ok ([1; 2]%nat, h').
Proof. eexists. vm_compute. reflexivity. Qed.

(** Scenario F: an item without timestamp is dated [now] and comes first. *)
Example scenario_missing_timestamp :
  let all_items :=
    [ sample_item "F1" "a" (Some (sample_now - 5 * hour));
      sample_item "F2" "b" None ] in
  ∃ h', filter_last_window two_feeds sample_now (refs all_items) 1 (Some 120)
          (objects all_items) = Ok ([1; 0]%nat, h') ∧
        getitem_dt_ist h' 1%nat = Ok (now_ist sample_now).
Proof. eexists. split; vm_compute; reflexivity. Qed.

(** Outside the contract: a negative [global_limit] drops entries from the
    end of the list, as a Python slice does. *)
Example trim_negative_limit : trim (Some (-1)) [1; 2; 3]%nat = [1; 2]%nat.
Proof. reflexivity. Qed.

(** * The claims *)




















(** ** The fetcher *)

Section FetcherFacts.
Context {Response Entry TimeStruct : Type}.
Context (session_get : string → result Response).
Context (feedparser_parse : Response → result (list Entry)).
Context (published_parsed updated_parsed : Entry → option TimeStruct).
Context (entry_title entry_link entry_summary : Entry → option string).
Context (datetime_utc : TimeStruct → result datetime).
Context (extract_image : Entry → result (option string)).
Context (get_publisher_name : string → Entry → result string).

Local Abbreviation fetch_feed_in :=
  (fetch_feed session_get feedparser_parse published_parsed updated_parsed
     entry_title entry_link entry_summary datetime_utc extract_image
     get_publisher_name).
Local Abbreviation fetch_all_loop_in :=
  (fetch_all_loop session_get feedparser_parse published_parsed updated_parsed
     entry_title entry_link entry_summary datetime_utc extract_image
     get_publisher_name).
Local Abbreviation fetch_all_in :=
  (fetch_all session_get feedparser_parse published_parsed updated_parsed
     entry_title entry_link entry_summary datetime_utc extract_image
     get_publisher_name).
Local Abbreviation contribution_in :=
  (contribution session_get feedparser_parse published_parsed updated_parsed
     entry_title entry_link entry_summary datetime_utc extract_image
     get_publisher_name).

Lemma fetch_all_loop_spec (feeds : list (string * string)) (acc : list Item) :
  fetch_all_loop_in feeds acc = Ok (acc ++ concat (contribution_in <$> feeds)).
Proof.
  revert acc. induction feeds as [|[name url] feeds IH]; intros acc.
  - cbn. by rewrite app_nil_r.
  - cbn [fetch_all_loop]. rewrite fmap_cons, concat_cons, app_assoc.
    unfold contribution at 1. cbn [fst snd].
    destruct (fetch_feed_in name url) as [feed_items|e]; cbn.
    + apply IH.
    + rewrite app_nil_r. apply IH.
Qed.

(** C9. Whatever the network and the parser do, [fetch_all] returns a pool
    and never raises: the pool is the concatenation of what each feed
    contributes, a feed whose HTTP request fails makes [fetch_feed] return
    the empty list, and a feed whose parsing or normalisation raises
    contributes nothing while the remaining feeds are still fetched. *)
Theorem fetch_all_swallows_failures (feeds : list (string * string)) :
  fetch_all session_get feedparser_parse published_parsed updated_parsed
     entry_title entry_link entry_summary datetime_utc extract_image
     get_publisher_name feeds =
    Ok (concat (contribution session_get feedparser_parse published_parsed updated_parsed
     entry_title entry_link entry_summary datetime_utc extract_image
     get_publisher_name <$> feeds)) ∧
  (∀ name url e, session_get url = Raise e →
     fetch_feed session_get feedparser_parse published_parsed updated_parsed
     entry_title entry_link entry_summary datetime_utc extract_image
     get_publisher_name name url = Ok [] ∧
     contribution session_get feedparser_parse published_parsed updated_parsed
     entry_title entry_link entry_summary datetime_utc extract_image
     get_publisher_name (name, url) = []) ∧
  (∀ name url e,
     fetch_feed session_get feedparser_parse published_parsed updated_parsed
     entry_title entry_link entry_summary datetime_utc extract_image
     get_publisher_name name url = Raise e →
     contribution session_get feedparser_parse published_parsed updated_parsed
     entry_title entry_link entry_summary datetime_utc extract_image
     get_publisher_name (name, url) = []).
Proof.
  split_and!.
  - unfold fetch_all. by rewrite fetch_all_loop_spec.
  - intros name url e He. unfold contribution, fetch_feed. cbn [fst snd].
    by rewrite He.
  - intros name url e He. unfold contribution. cbn [fst snd]. by rewrite He.
Qed.

End FetcherFacts.



(** * Further properties *)

(** ** More on the sort and on one pass *)

Lemma sort_desc_sorted_id {A} (key : A → Z) (l : list A) :
  StronglySorted (desc key) l → sort_desc key l = l.
Proof.
  induction 1 as [|x l Hs IH Hx]; [done|].
  cbn [sort_desc foldr]. fold (sort_desc key l). rewrite IH.
  destruct Hx as [|y l Hy _]; [done|].
  cbn [insert_desc]. unfold desc in Hy.
  destruct (Z.leb_spec (key y) (key x)); [done|lia].
Qed.

Lemma insert_desc_stable {A} (key : A → Z) (k : Z) (x : A) (l : list A) :
  filter (λ a, key a = k) (insert_desc key x l) =
  filter (λ a, key a = k) (x :: l).
Proof.
  induction l as [|y l IH]; [done|]. cbn [insert_desc].
  destruct (Z.leb_spec (key y) (key x)) as [Hle|Hlt]; [done|].
  rewrite (filter_cons _ y), IH, !(filter_cons _ x), (filter_cons _ y).
  destruct (decide (key y = k)), (decide (key x = k)); try done. lia.
Qed.

(** The sort is stable: entries with one timestamp keep their order. *)
Lemma sort_desc_stable {A} (key : A → Z) (k : Z) (l : list A) :
  filter (λ a, key a = k) (sort_desc key l) = filter (λ a, key a = k) l.
Proof.
  induction l as [|x l IH]; [done|].
  cbn [sort_desc foldr]. fold (sort_desc key l).
  by rewrite insert_desc_stable, !(filter_cons _ x), IH.
Qed.

Lemma foldl_invariant_in {S X} (step : S → X → S) (P : S → Prop)
    (xs : list X) (s : S) :
  P s → (∀ s x, x ∈ xs → P s → P (step s x)) → P (foldl step s xs).
Proof.
  revert s. induction xs as [|x xs IH]; intros s Hs Hstep; [done|].
  cbn [foldl]. apply IH.
  - apply Hstep; [by left|done].
  - intros s' x' Hx'. apply Hstep. by right.
Qed.

Lemma sorted_desc_earlier {A} (key : A → Z) (l : list A) (j : nat) (a e : A) :
  StronglySorted (desc key) l →
  l !! j = Some a → e ∈ l → key a < key e →
  ∃ i, (i < j)%nat ∧ l !! i = Some e.
Proof.
  intros Hs Ha [i Hi]%list_elem_of_lookup_1 Hlt. exists i. split; [|done].
  destruct (Nat.lt_trichotomy i j) as [?|[->|Hgt]]; [done| |].
  - rewrite Hi in Ha. injection Ha as ->. lia.
  - pose proof (sorted_desc_before key l j i a e Hs Hgt Ha Hi). lia.
Qed.

Section MoreSelectionFacts.
Context {A : Type} (dt : A → Z) (feed_of link_of : A → string).

Local Abbreviation key := (key_of feed_of link_of).
Local Abbreviation from := (of_feed feed_of).
Local Abbreviation pass := (feed_pass dt feed_of link_of).

(** A pass for a feed that already has its floor changes nothing. *)
Lemma feed_pass_satisfied (pool : list A) (limit : Z)
    (st : list A * gset (string * string)) (f : string) :
  limit ≤ Z.of_nat (length (from f st.1)) → pass pool limit st f = st.
Proof.
  intros Hle. unfold feed_pass. destruct (from f pool); [done|].
  destruct (Z.leb_spec limit (Z.of_nat (length (from f st.1)))); [done|lia].
Qed.

(** A pass appends at most [limit] entries. *)
Lemma feed_pass_length (pool : list A) (limit : Z)
    (st : list A * gset (string * string)) (f : string) :
  0 ≤ limit →
  Z.of_nat (length (pass pool limit st f).1) ≤ Z.of_nat (length st.1) + limit.
Proof.
  intros Hlim.
  destruct (feed_pass_spec dt feed_of link_of pool limit st f)
    as (added & -> & Hadd & _ & _ & Hle & _).
  cbn [fst]. rewrite length_app. destruct Hle as [->|Hle]; [cbn; lia|].
  rewrite of_feed_app, length_app in Hle.
  rewrite (of_feed_all feed_of f added) in Hle; [lia|].
  eapply Forall_impl; [exact Hadd|]. by intros a [_ ?].
Qed.

Lemma passes_length (pool : list A) (limit : Z) (fs : list string)
    (st : list A * gset (string * string)) :
  0 ≤ limit →
  Z.of_nat (length (foldl (pass pool limit) st fs).1) ≤
    Z.of_nat (length st.1) + limit * Z.of_nat (length fs).
Proof.
  intros Hlim. revert st. induction fs as [|f fs IH]; intros st.
  - cbn. lia.
  - cbn [foldl length]. specialize (IH (pass pool limit st f)).
    pose proof (feed_pass_length pool limit st f Hlim). lia.
Qed.

Section Passes.
Context (fs : list string) (cutoff limit : Z) (pool ww : list A).
Context (Hww_in : ∀ a, a ∈ ww → cutoff ≤ dt a).
Context (Hww_all : ∀ a, a ∈ pool → cutoff ≤ dt a → a ∈ ww).

Local Abbreviation appended_ok :=
  (appended_ok dt feed_of link_of fs cutoff pool ww).

Lemma appended_ok_start : appended_ok (ww, list_to_set (key <$> ww)).
Proof.
  split; [done|]. exists []. rewrite app_nil_r. split_and!.
  - done.
  - constructor.
  - apply NoDup_nil_2.
  - intros a b Ha. by apply elem_of_nil in Ha.
Qed.

Lemma appended_ok_pass (st : list A * gset (string * string)) (f : string) :
  f ∈ fs → appended_ok st → appended_ok (pass pool limit st f).
Proof.
  intros Hf [Hseen (added & Hst & Hadd & Hnd & Hdisj)].
  split; [by apply pass_seen|].
  destruct (feed_pass_spec dt feed_of link_of pool limit st f)
    as (more & -> & Hmore & Hnd' & Hfresh & _).
  cbn [fst]. exists (added ++ more). rewrite Hst, app_assoc.
  assert (Hnew : ∀ a, a ∈ more → key a ∉ key <$> (ww ++ added)).
  { intros a Ha Hk. apply (Hfresh a Ha). rewrite Hseen, Hst.
    by apply elem_of_list_to_set. }
  assert (Hstale : ∀ a, a ∈ more → dt a < cutoff).
  { intros a Ha. destruct (Z.lt_ge_cases (dt a) cutoff) as [|Hge]; [done|].
    exfalso. apply (Hnew a Ha). apply list_elem_of_fmap. exists a.
    split; [done|]. apply elem_of_app. left. apply Hww_all; [|done].
    rewrite Forall_forall in Hmore. by apply Hmore. }
  split_and!.
  - done.
  - apply Forall_app. split; [done|]. apply Forall_forall. intros a Ha.
    rewrite Forall_forall in Hmore. destruct (Hmore a Ha) as [Hp Hfeed].
    split_and!; [done|by apply Hstale|by rewrite Hfeed].
  - rewrite fmap_app. apply NoDup_app. split_and!; [done| |done].
    intros k Hk (a & -> & Ha)%list_elem_of_fmap.
    apply (Hnew a Ha). rewrite fmap_app. apply elem_of_app. by right.
  - intros a b [Ha|Ha]%elem_of_app Hb; [by apply Hdisj|].
    intros Hk. apply (Hnew a Ha). rewrite Hk. apply list_elem_of_fmap.
    exists b. split; [done|]. apply elem_of_app. by left.
Qed.

Lemma appended_ok_passes :
  appended_ok (foldl (pass pool limit) (ww, list_to_set (key <$> ww)) fs).
Proof.
  apply (foldl_invariant_in _ appended_ok); [apply appended_ok_start|].
  intros s f. apply appended_ok_pass.
Qed.

End Passes.

End MoreSelectionFacts.

(** ** More on what [select] returns *)

Lemma filter_all {A} (P : A → Prop) `{!∀ x, Decision (P x)} (l : list A) :
  Forall P l → filter P l = l.
Proof.
  induction 1 as [|x l Hx _ IH]; [done|].
  rewrite filter_cons_True by done. by f_equal.
Qed.

Section MoreSelect.
Context {A : Type} (dt : A → Z) (feed_of link_of : A → string).
Context (feed_names : list string) (cutoff limit : Z) (pool : list A).

Local Abbreviation key := (key_of feed_of link_of).
Local Abbreviation from := (of_feed feed_of).
Local Abbreviation ww := (window dt cutoff pool).
Local Abbreviation final :=
  (floors dt feed_of link_of feed_names limit pool (window dt cutoff pool)).1.
Local Abbreviation selected :=
  (select dt feed_of link_of feed_names cutoff limit pool).

Lemma floors_appended :
  ∃ added, final = ww ++ added ∧
    Forall (λ a, a ∈ pool ∧ dt a < cutoff ∧ feed_of a ∈ feed_names) added ∧
    NoDup (key <$> added) ∧
    (∀ a b, a ∈ added → b ∈ ww → key a ≠ key b).
Proof.
  unfold floors.
  destruct (appended_ok_passes dt feed_of link_of feed_names cutoff limit pool ww)
    as [_ Hadd]; [|done].
  intros a Ha Hdt. by apply window_elem_of.
Qed.

Lemma window_filter_stale (P : A → Prop) `{!∀ a, Decision (P a)} :
  filter (λ a, P a ∧ dt a < cutoff) ww = [].
Proof.
  apply filter_none, Forall_forall. intros a Ha [_ Hold].
  apply window_elem_of in Ha as [Hnew _]. lia.
Qed.

(** The stale entries of the selection are the appended ones. *)
Lemma select_stale_perm :
  ∃ added, filter (λ a, dt a < cutoff) selected ≡ₚ added ∧
    selected ≡ₚ ww ++ added ∧
    Forall (λ a, a ∈ pool ∧ dt a < cutoff ∧ feed_of a ∈ feed_names) added ∧
    NoDup (key <$> added) ∧
    (∀ a b, a ∈ added → b ∈ ww → key a ≠ key b).
Proof.
  destruct floors_appended as (added & Hfin & Hadd & Hnd & Hdisj).
  exists added. split_and!; try done.
  - unfold select. rewrite (sort_desc_perm dt), Hfin, filter_app.
    rewrite (filter_none _ ww).
    2:{ apply Forall_forall. intros a Ha%window_elem_of. lia. }
    cbn [app]. rewrite filter_all; [done|].
    eapply Forall_impl; [exact Hadd|]. by intros a (_ & ? & _).
  - unfold select. by rewrite (sort_desc_perm dt), Hfin.
Qed.

Lemma select_window_perm :
  filter (λ a, cutoff ≤ dt a) selected ≡ₚ filter (λ a, cutoff ≤ dt a) pool.
Proof.
  destruct select_stale_perm as (added & _ & -> & Hadd & _).
  rewrite filter_app. rewrite (filter_none _ added).
  2:{ eapply Forall_impl; [exact Hadd|]. intros a (_ & ? & _). lia. }
  rewrite app_nil_r. unfold window. rewrite (sort_desc_perm dt).
  by rewrite list_filter_filter_l.
Qed.

Lemma select_ties (k : Z) :
  cutoff ≤ k →
  filter (λ a, dt a = k) selected = filter (λ a, dt a = k) pool.
Proof.
  intros Hk. destruct floors_appended as (added & Hfin & Hadd & _).
  unfold select. rewrite sort_desc_stable, Hfin, filter_app.
  rewrite (filter_none _ added).
  2:{ eapply Forall_impl; [exact Hadd|]. intros a (_ & ? & _). lia. }
  rewrite app_nil_r. unfold window. rewrite sort_desc_stable.
  apply list_filter_filter_l. intros a ->. done.
Qed.

Lemma select_unconfigured (f : string) :
  f ∉ feed_names → stale_of_feed dt feed_of cutoff f selected = [].
Proof.
  intros Hf. destruct select_stale_perm as (added & _ & Hperm & Hadd & _).
  apply Permutation_nil. unfold stale_of_feed. rewrite Hperm, filter_app.
  rewrite (window_filter_stale (λ a, feed_of a = f)). cbn [app].
  rewrite filter_none; [done|].
  eapply Forall_impl; [exact Hadd|]. intros a (_ & _ & Hin) [<- _]. done.
Qed.

Lemma select_satisfied (f : string) :
  limit ≤ Z.of_nat (length (from f ww)) →
  stale_of_feed dt feed_of cutoff f selected = [].
Proof.
  intros Hsat.
  assert (Hinv : ∃ added, final = ww ++ added ∧
                          Forall (λ a, feed_of a ≠ f) added).
  { unfold floors.
    apply (foldl_invariant _
      (λ st, ∃ added, st.1 = ww ++ added ∧ Forall (λ a, feed_of a ≠ f) added)).
    { exists []. by rewrite app_nil_r. }
    intros st g (added & Hst & Hadd). destruct (decide (g = f)) as [->|Hne].
    - rewrite feed_pass_satisfied; [by exists added|].
      rewrite Hst, of_feed_app, length_app. lia.
    - destruct (feed_pass_spec dt feed_of link_of pool limit st g)
        as (more & -> & Hmore & _).
      cbn [fst]. exists (added ++ more). rewrite Hst, app_assoc.
      split; [done|]. apply Forall_app. split; [done|].
      eapply Forall_impl; [exact Hmore|]. intros a [_ ->]. done. }
  destruct Hinv as (added & Hfin & Hadd).
  apply Permutation_nil. unfold stale_of_feed, select.
  rewrite (sort_desc_perm dt), Hfin, filter_app.
  rewrite (window_filter_stale (λ a, feed_of a = f)). cbn [app].
  rewrite filter_none; [done|].
  eapply Forall_impl; [exact Hadd|]. intros a Hne [Heq _]. done.
Qed.

Lemma select_no_fallback : limit ≤ 0 → selected = ww.
Proof.
  intros Hlim.
  assert (Hfin : floors dt feed_of link_of feed_names limit pool ww =
                 (ww, list_to_set (key <$> ww))).
  { unfold floors.
    apply (foldl_invariant _ (λ st, st = (ww, list_to_set (key <$> ww))));
      [done|].
    intros st g ->. apply feed_pass_satisfied. lia. }
  unfold select. rewrite Hfin. cbn [fst].
  apply sort_desc_sorted_id. unfold window. apply sort_desc_sorted.
Qed.

Lemma select_stale_total :
  0 ≤ limit →
  Z.of_nat (length (filter (λ a, dt a < cutoff) selected)) ≤
    limit * Z.of_nat (length feed_names).
Proof.
  intros Hlim. destruct floors_appended as (added & Hfin & Hadd & _).
  pose proof (passes_length dt feed_of link_of pool limit feed_names
                (ww, list_to_set (key <$> ww)) Hlim) as Hlen.
  fold (floors dt feed_of link_of feed_names limit pool ww) in Hlen.
  rewrite Hfin in Hlen. cbn [fst] in Hlen. rewrite length_app in Hlen.
  unfold select. rewrite (sort_desc_perm dt), Hfin, filter_app, length_app.
  rewrite (filter_none _ ww).
  2:{ apply Forall_forall. intros a Ha%window_elem_of. lia. }
  pose proof (length_filter (λ a, dt a < cutoff) added). cbn [length]. lia.
Qed.

End MoreSelect.

(** ** The fallback takes the newest first *)

Section Newest.
Context {A : Type} (dt : A → Z) (feed_of link_of : A → string).

Local Abbreviation key := (key_of feed_of link_of).
Local Abbreviation from := (of_feed feed_of).
Local Abbreviation pass := (feed_pass dt feed_of link_of).
Local Abbreviation rep := (represented dt feed_of link_of).

Lemma represented_app_l (l k : list A) (c : A) : rep l c → rep (l ++ k) c.
Proof.
  intros (e & He & Hk & Hdt). exists e. split_and!; [|done..].
  apply elem_of_app. by left.
Qed.

Lemma represented_self (l : list A) (c : A) : c ∈ l → rep l c.
Proof. intros Hc. exists c. split_and!; [done..|lia]. Qed.

(** The inner loop works through a prefix of the sorted candidates; every
    candidate of that prefix ends up represented, and what is appended comes
    from that prefix. *)
Lemma fallback_newest (limit : Z) (cands final : list A)
    (seen : gset (string * string)) (already : list A) :
  StronglySorted (desc dt) cands →
  (∀ c, c ∈ cands → key c ∈ seen → rep final c) →
  ∃ processed rest added,
    cands = processed ++ rest ∧
    (fallback feed_of link_of limit cands final seen already).1 =
      final ++ added ∧
    (∀ a, a ∈ added → a ∈ processed) ∧
    (∀ c, c ∈ processed → rep (final ++ added) c).
Proof.
  intros Hs. revert final seen already.
  induction Hs as [|cand rest Hs IH Hcand]; intros final seen already Hrep.
  - exists [], [], []. rewrite (app_nil_r final). split; [done|]. split; [done|]. split.
    + intros a Ha. by apply elem_of_nil in Ha.
    + intros c Hc. by apply elem_of_nil in Hc.
  - cbn [fallback]. destruct (decide (key cand ∈ seen)) as [Hin|Hnin].
    + destruct (IH final seen already) as (pr & rs & added & -> & Hfin & Hadd & Hpr).
      { intros c Hc. apply Hrep. by right. }
      exists (cand :: pr), rs, added. split; [done|]. split; [done|]. split.
      * intros a Ha. right. by apply Hadd.
      * intros c [->|Hc]%elem_of_cons; [|by apply Hpr].
        apply represented_app_l, Hrep; [by left|done].
    + destruct (limit <=? Z.of_nat (length (already ++ [cand]))).
      * exists [cand], rest, [cand]. split; [done|]. split; [done|]. split.
        -- intros a Ha. done.
        -- intros c ->%list_elem_of_singleton. apply represented_self.
           apply elem_of_app. right. by left.
      * destruct (IH (final ++ [cand]) ({[key cand]} ∪ seen) (already ++ [cand]))
          as (pr & rs & added & -> & Hfin & Hadd & Hpr).
        { intros c Hc [Hk|Hk]%elem_of_union.
          - apply elem_of_singleton in Hk. exists cand. split_and!.
            + apply elem_of_app. right. by left.
            + done.
            + rewrite Forall_forall in Hcand. by apply Hcand.
          - apply represented_app_l, Hrep; [by right|done]. }
        exists (cand :: pr), rs, (cand :: added).
        rewrite Hfin, <- app_assoc. cbn [app]. split; [done|]. split; [done|]. split.
        -- intros a [->|Ha]%elem_of_cons; [by left|]. right. by apply Hadd.
        -- intros c [->|Hc]%elem_of_cons.
           ++ apply represented_self. apply elem_of_app. right. by left.
           ++ specialize (Hpr c Hc). by rewrite <- app_assoc in Hpr.
Qed.

(** One pass keeps every pool item whose key has been seen represented,
    and represents every pool item of its feed that is newer than an entry
    it appends. *)
Lemma feed_pass_newest (pool : list A) (limit : Z)
    (st : list A * gset (string * string)) (f : string) :
  st.2 = list_to_set (key <$> st.1) →
  (∀ c, c ∈ pool → key c ∈ st.2 → rep st.1 c) →
  ∃ added,
    (pass pool limit st f).1 = st.1 ++ added ∧
    Forall (λ a, feed_of a = f) added ∧
    (∀ c, c ∈ pool → key c ∈ (pass pool limit st f).2 →
          rep (pass pool limit st f).1 c) ∧
    (∀ a b, a ∈ added → b ∈ pool → feed_of b = f → dt a < dt b →
            rep (pass pool limit st f).1 b).
Proof.
  intros Hseen Hrep.
  assert (Hsame : ∃ added, st.1 = st.1 ++ added ∧
            Forall (λ a, feed_of a = f) added ∧
            (∀ c, c ∈ pool → key c ∈ st.2 → rep st.1 c) ∧
            (∀ a b, a ∈ added → b ∈ pool → feed_of b = f → dt a < dt b →
                    rep st.1 b)).
  { exists []. rewrite app_nil_r. split; [done|]. split; [constructor|].
    split; [done|]. intros a b Ha. by apply elem_of_nil in Ha. }
  unfold feed_pass. destruct (from f pool) as [|c0 cs] eqn:Hpool; [done|].
  destruct (limit <=? Z.of_nat (length (from f st.1))); [done|].
  clear Hsame. rewrite <- Hpool.
  assert (Hcands : ∀ c, c ∈ sort_desc dt (from f pool) ↔ c ∈ pool ∧ feed_of c = f).
  { intros c. rewrite (sort_desc_elem_of dt). unfold of_feed.
    rewrite list_elem_of_filter. tauto. }
  destruct (fallback_newest limit (sort_desc dt (from f pool)) st.1 st.2
              (from f st.1))
    as (pr & rs & added & Hsplit & Hfin & Hadd & Hpr).
  { apply sort_desc_sorted. }
  { intros c Hc. apply Hrep. by apply Hcands in Hc as [? _]. }
  destruct (fallback_spec dt feed_of link_of limit (sort_desc dt (from f pool))
              st.1 st.2 (from f st.1))
    as (added' & Heq & _).
  rewrite Heq in Hfin |- *. cbn [fst snd] in *.
  apply app_inv_head in Hfin as ->.
  assert (Hsorted : StronglySorted (desc dt) (pr ++ rs)).
  { rewrite <- Hsplit. apply sort_desc_sorted. }
  assert (Hfeed : Forall (λ a, feed_of a = f) added).
  { apply Forall_forall. intros a Ha. apply Hadd in Ha.
    assert (Hin : a ∈ sort_desc dt (from f pool)).
    { rewrite Hsplit. apply elem_of_app. by left. }
    by apply Hcands in Hin as [_ ?]. }
  assert (Hin_cands : ∀ b, b ∈ pool → feed_of b = f → b ∈ pr ∨ b ∈ rs).
  { intros b Hb Hf. apply elem_of_app. rewrite <- Hsplit. by apply Hcands. }
  exists added. split; [done|]. split; [done|]. split.
  - intros c Hc [Hk|Hk]%elem_of_union; [|by apply represented_app_l, Hrep].
    apply elem_of_list_to_set, list_elem_of_fmap in Hk as (a & Hk & Ha).
    assert (Hcf : feed_of c = f).
    { rewrite Forall_forall in Hfeed. specialize (Hfeed a Ha).
      injection Hk as Hk1 _. congruence. }
    destruct (Hin_cands c Hc Hcf) as [Hpc|Hrc]; [by apply Hpr|].
    exists a. split_and!.
    + apply elem_of_app. by right.
    + done.
    + apply (StronglySorted_app_1_elem_of (desc dt) pr rs a c Hsorted);
        [by apply Hadd|done].
  - intros a b Ha Hb Hbf Hlt.
    destruct (Hin_cands b Hb Hbf) as [Hpb|Hrb]; [by apply Hpr|].
    pose proof (StronglySorted_app_1_elem_of (desc dt) pr rs a b Hsorted
                  (Hadd a Ha) Hrb) as Hle.
    unfold desc in Hle. lia.
Qed.

Section NewestSelect.
Context (feed_names : list string) (cutoff limit : Z) (pool : list A).

Local Abbreviation ww := (window dt cutoff pool).
Local Abbreviation selected :=
  (select dt feed_of link_of feed_names cutoff limit pool).

(** A stale entry is selected only when every newer pool item of its feed
    is represented in the selection. *)
Lemma select_newest (a b : A) :
  a ∈ selected → dt a < cutoff →
  b ∈ pool → feed_of b = feed_of a → dt a < dt b →
  rep selected b.
Proof.
  intros Ha Hstale Hb Hfeed Hlt.
  assert (Hinv :
    let st := floors dt feed_of link_of feed_names limit pool ww in
    st.2 = list_to_set (key <$> st.1) ∧
    (∀ c, c ∈ pool → key c ∈ st.2 → rep st.1 c) ∧
    ∃ added, st.1 = ww ++ added ∧
      ∀ a b, a ∈ added → b ∈ pool → feed_of b = feed_of a → dt a < dt b →
             rep st.1 b).
  { unfold floors.
    apply (foldl_invariant _ (λ st,
      st.2 = list_to_set (key <$> st.1) ∧
      (∀ c, c ∈ pool → key c ∈ st.2 → rep st.1 c) ∧
      ∃ added, st.1 = ww ++ added ∧
        ∀ a b, a ∈ added → b ∈ pool → feed_of b = feed_of a → dt a < dt b →
               rep st.1 b)).
    - split; [done|]. split.
      + cbn [fst snd]. intros c Hc Hk.
        apply elem_of_list_to_set, list_elem_of_fmap in Hk as (e & Hk & He).
        destruct (Z.lt_ge_cases (dt c) cutoff) as [Hold|Hnew].
        * exists e. split_and!; [done..|].
          apply window_elem_of in He as [? _]. lia.
        * apply represented_self. by apply window_elem_of.
      + exists []. cbn [fst]. rewrite app_nil_r. split; [done|].
        intros a' b' Ha'. by apply elem_of_nil in Ha'.
    - intros st f (Hseen & Hrep & added & Hst & Hnew).
      destruct (feed_pass_newest pool limit st f Hseen Hrep)
        as (more & Hfin & Hmore & Hrep' & Hnew').
      split; [by apply pass_seen|]. split; [done|].
      exists (added ++ more). rewrite Hfin, Hst, app_assoc. split; [done|].
      intros a' b' [Ha'|Ha']%elem_of_app Hb' Hf' Hlt'.
      + rewrite <- Hst. apply represented_app_l. by apply (Hnew a' b').
      + rewrite <- Hst, <- Hfin. apply (Hnew' a' b'); [done..| |done].
        rewrite Forall_forall in Hmore. rewrite Hf'. by apply Hmore. }
  destruct Hinv as (_ & _ & added & Hfin & Hnew).
  assert (Hrep_sel : ∀ c, rep (floors dt feed_of link_of feed_names limit pool
                                  ww).1 c → rep selected c).
  { intros c (e & He & Hk & Hdt). exists e. split_and!; [|done..].
    unfold select. by rewrite (sort_desc_elem_of dt). }
  apply Hrep_sel. apply (Hnew a b); [|done..].
  unfold select in Ha. rewrite (sort_desc_elem_of dt), Hfin in Ha.
  apply elem_of_app in Ha as [Ha|Ha]; [|done].
  apply window_elem_of in Ha as [? _]. lia.
Qed.

End NewestSelect.

End Newest.

(** ** More on [filter_last_window] *)

Lemma filter_take_prefix {A} (P : A → Prop) `{!∀ x, Decision (P x)}
    (n : nat) (l : list A) :
  filter P (take n l) `prefix_of` filter P l.
Proof.
  exists (filter P (drop n l)). by rewrite <- filter_app, take_drop.
Qed.

Lemma trim_negative {A} (g : Z) (l : list A) :
  g < 0 → trim (Some g) l = take (length l - Z.to_nat (- g)) l.
Proof.
  intros Hg. unfold trim, slice_to.
  destruct (Z.ltb_spec g (Z.of_nat (length l))); [|lia].
  destruct (Z.leb_spec 0 g); [lia|]. f_equal. lia.
Qed.



















(** ** More on the fetcher *)

Lemma map_r_Ok_inv {A B} (f : A → result B) (l : list A) (ys : list B) :
  map_r f l = Ok ys → Forall2 (λ x y, f x = Ok y) l ys.
Proof.
  revert ys. induction l as [|x l IH]; intros ys; cbn [map_r].
  - intros [= <-]. constructor.
  - destruct (f x) as [y|e] eqn:Hx; [|done]. cbn [bind_r].
    destruct (map_r f l) as [ys'|e]; [|done]. cbn [bind_r].
    intros [= <-]. constructor; [done|]. by apply IH.
Qed.

Lemma map_r_Raise {A B} (f : A → result B) (l : list A) (x : A) (e : exn) :
  x ∈ l → f x = Raise e → ∃ e', map_r f l = Raise e'.
Proof.
  intros Hx Hfx. induction l as [|y l IH]; [by apply elem_of_nil in Hx|].
  cbn [map_r]. destruct (f y) as [b|e0] eqn:Hy; [|by eexists].
  cbn [bind_r]. apply elem_of_cons in Hx as [->|Hx]; [congruence|].
  destruct (IH Hx) as [e' ->]. by eexists.
Qed.

Lemma elem_of_concat_inv {A} (x : A) (ls : list (list A)) :
  x ∈ concat ls → ∃ l, x ∈ l ∧ l ∈ ls.
Proof.
  induction ls as [|l ls IH]; cbn [concat].
  - intros Hx. by apply elem_of_nil in Hx.
  - intros [Hx|Hx]%elem_of_app.
    + exists l. split; [done|by left].
    + destruct (IH Hx) as (l' & ? & ?). exists l'. split; [done|by right].
Qed.

Section MoreFetcherFacts.
Context {Response Entry TimeStruct : Type}.
Context (session_get : string → result Response).
Context (feedparser_parse : Response → result (list Entry)).
Context (published_parsed updated_parsed : Entry → option TimeStruct).
Context (entry_title entry_link entry_summary : Entry → option string).
Context (datetime_utc : TimeStruct → result datetime).
Context (extract_image : Entry → result (option string)).
Context (get_publisher_name : string → Entry → result string).

Lemma normalise_Ok (name : string) (entry : Entry) (it : Item) :
  normalise published_parsed updated_parsed entry_title entry_link
    entry_summary datetime_utc extract_image get_publisher_name name entry
    = Ok it →
  feed it = name ∧ dt_ist it = None.
Proof.
  unfold normalise.
  destruct (match published_parsed entry with
            | Some t => Some t
            | None => updated_parsed entry
            end) as [t|].
  - destruct (datetime_utc t); [|done]. cbn [bind_r].
    destruct (extract_image entry); [|done]. cbn [bind_r].
    destruct (get_publisher_name name entry); [|done]. cbn [bind_r].
    by intros [= <-].
  - cbn [bind_r].
    destruct (extract_image entry); [|done]. cbn [bind_r].
    destruct (get_publisher_name name entry); [|done]. cbn [bind_r].
    by intros [= <-].
Qed.

Lemma fetch_feed_Ok_tagged (name url : string) (feed_items : list Item) :
  fetch_feed session_get feedparser_parse published_parsed updated_parsed
    entry_title entry_link entry_summary datetime_utc extract_image
    get_publisher_name name url = Ok feed_items →
  Forall (λ it, feed it = name ∧ dt_ist it = None) feed_items.
Proof.
  unfold fetch_feed. destruct (session_get url) as [resp|e].
  - destruct (feedparser_parse resp) as [entries|e]; [|done].
    cbn [bind_r]. intros Hmap%map_r_Ok_inv.
    induction Hmap as [|x y l k Hxy _ IH]; [constructor|].
    constructor; [by eapply normalise_Ok|done].
  - intros [= <-]. constructor.
Qed.

Lemma fetch_all_Ok (feeds : list (string * string)) :
  fetch_all session_get feedparser_parse published_parsed updated_parsed
    entry_title entry_link entry_summary datetime_utc extract_image
    get_publisher_name feeds =
  Ok (concat (contribution session_get feedparser_parse published_parsed
                updated_parsed entry_title entry_link entry_summary
                datetime_utc extract_image get_publisher_name <$> feeds)).
Proof. unfold fetch_all. by rewrite fetch_all_loop_spec. Qed.

Lemma contribution_tagged (name url : string) :
  Forall (λ it, feed it = name ∧ dt_ist it = None)
    (contribution session_get feedparser_parse published_parsed
       updated_parsed entry_title entry_link entry_summary datetime_utc
       extract_image get_publisher_name (name, url)).
Proof.
  unfold contribution. cbn [fst snd].
  destruct (fetch_feed _ _ _ _ _ _ _ _ _ _ name url) as [feed_items|e] eqn:Hf.
  - by apply fetch_feed_Ok_tagged in Hf.
  - constructor.
Qed.

(** X10. When [fetch_feed] returns, every item carries the feed name it was
    called with and has no ["dt_ist"] yet, and there is one item per entry
    of the parsed document. *)
Theorem fetch_feed_items_tagged (name url : string) (feed_items : list Item) :
  fetch_feed session_get feedparser_parse published_parsed updated_parsed
    entry_title entry_link entry_summary datetime_utc extract_image
    get_publisher_name name url = Ok feed_items →
  Forall (λ it, feed it = name ∧ dt_ist it = None) feed_items ∧
  (∀ resp entries, session_get url = Ok resp →
     feedparser_parse resp = Ok entries →
     length feed_items = length entries).
Proof.
  intros Hf. split; [by apply fetch_feed_Ok_tagged in Hf|].
  intros resp entries Hget Hparse. unfold fetch_feed in Hf.
  rewrite Hget, Hparse in Hf. cbn [bind_r] in Hf.
  apply map_r_Ok_inv in Hf. symmetry. by eapply Forall2_length.
Qed.

(** X11. [fetch_feed] is all or nothing: when the request and the parse
    succeed but normalising one entry raises, [fetch_feed] raises and the
    feed contributes no item to the pool, not even the entries before the
    failing one. *)
Theorem fetch_feed_all_or_nothing (name url : string) (resp : Response)
    (entries : list Entry) (entry : Entry) (e : exn) :
  session_get url = Ok resp →
  feedparser_parse resp = Ok entries →
  entry ∈ entries →
  normalise published_parsed updated_parsed entry_title entry_link
    entry_summary datetime_utc extract_image get_publisher_name name entry
    = Raise e →
  (∃ e', fetch_feed session_get feedparser_parse published_parsed
           updated_parsed entry_title entry_link entry_summary datetime_utc
           extract_image get_publisher_name name url = Raise e') ∧
  contribution session_get feedparser_parse published_parsed updated_parsed
    entry_title entry_link entry_summary datetime_utc extract_image
    get_publisher_name (name, url) = [].
Proof.
  intros Hget Hparse Hin Hraise.
  assert (Hfetch : ∃ e', fetch_feed session_get feedparser_parse
            published_parsed updated_parsed entry_title entry_link
            entry_summary datetime_utc extract_image get_publisher_name
            name url = Raise e').
  { unfold fetch_feed. rewrite Hget, Hparse. cbn [bind_r].
    by eapply map_r_Raise. }
  split; [done|]. destruct Hfetch as [e' He'].
  unfold contribution. cbn [fst snd]. by rewrite He'.
Qed.

(** X12. Every item of the pool that [fetch_all] returns carries the name of
    a configured feed and has no ["dt_ist"] yet. *)
Theorem fetch_all_items_configured (feeds : list (string * string)) :
  ∃ all_items,
    fetch_all session_get feedparser_parse published_parsed updated_parsed
      entry_title entry_link entry_summary datetime_utc extract_image
      get_publisher_name feeds = Ok all_items ∧
    Forall (λ it, feed it ∈ feeds.*1 ∧ dt_ist it = None) all_items.
Proof.
  eexists. split; [apply fetch_all_Ok|].
  apply Forall_forall. intros it Hit.
  apply elem_of_concat_inv in Hit as (its & Hit & Hits).
  apply list_elem_of_fmap in Hits as ([name url] & -> & Hfeed).
  pose proof (contribution_tagged name url) as Htag.
  rewrite Forall_forall in Htag. destruct (Htag it Hit) as [-> ?].
  split; [|done]. apply list_elem_of_fmap. by exists (name, url).
Qed.

End MoreFetcherFacts.

Lemma fetch_feed_items_tagged_witness :
  ∃ feed_items,
    sample_fetch_feed "Moneycontrol"
      "http://www.moneycontrol.com/rss/latestnews.xml" = Ok feed_items ∧
    Forall (λ it, feed it = "Moneycontrol"%string ∧ dt_ist it = None)
      feed_items ∧
    (∀ resp entries,
       sample_get "http://www.moneycontrol.com/rss/latestnews.xml" = Ok resp →
       sample_parse resp = Ok entries →
       length feed_items = length entries).
Proof.
  eexists. split; [vm_compute; reflexivity|].
  apply (fetch_feed_items_tagged sample_get sample_parse raw_published
           raw_updated raw_title raw_link (λ _, None) sample_datetime
           (λ _, Ok None) (λ name _, Ok name) "Moneycontrol"
           "http://www.moneycontrol.com/rss/latestnews.xml").
  vm_compute. reflexivity.
Defined.

Lemma fetch_feed_all_or_nothing_witness :
  (∃ e', sample_fetch_feed "The Hindu - Markets"
           "https://www.thehindu.com/business/markets/feeder/default.rss"
         = Raise e') ∧
  contribution sample_get sample_parse raw_published raw_updated raw_title
    raw_link (λ _, None) sample_datetime (λ _, Ok None) (λ name _, Ok name)
    ("The Hindu - Markets"%string,
     "https://www.thehindu.com/business/markets/feeder/default.rss"%string)
  = [].
Proof.
  apply (fetch_feed_all_or_nothing sample_get sample_parse raw_published
           raw_updated raw_title raw_link (λ _, None) sample_datetime
           (λ _, Ok None) (λ name _, Ok name) "The Hindu - Markets"
           "https://www.thehindu.com/business/markets/feeder/default.rss"
           1%nat
           [ RawEntry (Some (sample_now - 2 * hour)) None
               (Some "Rupee steady"%string)
               (Some "https://th.example/0"%string);
             RawEntry (Some (-1)) None (Some "Nifty flat"%string)
               (Some "https://th.example/1"%string) ]
           (RawEntry (Some (-1)) None (Some "Nifty flat"%string)
              (Some "https://th.example/1"%string))
           (Exception "ValueError")).
  - vm_compute. reflexivity.
  - vm_compute. reflexivity.
  - right. by left.
  - vm_compute. reflexivity.
Defined.

(** ** [extract_image] and [get_publisher_name] *)

Lemma url_of_media_truthy (media url : value) :
  url_of_media media = Ok (Some url) → truthy url = true.
Proof.
  unfold url_of_media. destruct (truthy media); [|done].
  destruct media as [| |[|first l]|a d| |]; try done.
  - destruct (call_get first "url" VNone) as [u|]; [|done]. cbn [bind_r].
    destruct (truthy u) eqn:Hu; [|done]. by intros [= <-].
  - destruct (call_get (VDict a d) "url" VNone) as [u|]; [|done].
    cbn [bind_r]. destruct (truthy u) eqn:Hu; [|done]. by intros [= <-].
Qed.

Lemma image_link_truthy (links : list value) (v : value) :
  image_link links = Ok v → v = VNone ∨ truthy v = true.
Proof.
  induction links as [|link rest IH]; cbn [image_link].
  - intros [= <-]. by left.
  - destruct (or_else (getattr link "type" (VStr ""))
                (call_get link "type" (VStr ""))) as [link_type|]; [|done].
    cbn [bind_r].
    destruct (or_else (getattr link "href" (VStr ""))
                (call_get link "href" (VStr ""))) as [href|]; [|done].
    cbn [bind_r]. destruct (truthy link_type).
    + destruct (call_startswith link_type "image/") as [is_image|]; [|done].
      cbn [bind_r]. destruct is_image; cbn [andb]; [|done].
      destruct (truthy href) eqn:Hh; [|done]. intros [= <-]. by right.
    + cbn [bind_r]. done.
Qed.

(** X13. [extract_image] never returns an empty URL: what it returns is
    [None] or a truthy value. *)
Theorem extract_image_none_or_truthy (entry v : value) :
  extract_image entry = Ok v → v = VNone ∨ truthy v = true.
Proof.
  unfold extract_image.
  destruct (url_of_media (getattr entry "media_content" VNone))
    as [[url|]|] eqn:Hc; [| |done]; cbn [bind_r].
  { intros [= <-]. right. by eapply url_of_media_truthy. }
  destruct (url_of_media (getattr entry "media_thumbnail" VNone))
    as [[url|]|] eqn:Ht; [| |done]; cbn [bind_r].
  { intros [= <-]. right. by eapply url_of_media_truthy. }
  destruct (iterate (getattr entry "links" (VList []))) as [links|]; [|done].
  cbn [bind_r]. apply image_link_truthy.
Qed.

Lemma extract_image_none_or_truthy_witness :
  VStr "https://img.example/1.jpg" = VNone ∨
  truthy (VStr "https://img.example/1.jpg") = true.
Proof.
  apply (extract_image_none_or_truthy sample_entry
           (VStr "https://img.example/1.jpg")).
  vm_compute. reflexivity.
Defined.

Lemma url_of_media_shaped (media : value) :
  media_shaped media → ∃ r, url_of_media media = Ok r.
Proof.
  unfold url_of_media, media_shaped. destruct (truthy media); [|by eexists].
  destruct media as [| |[|first l]|a d| |]; try by eexists.
  destruct first; try done. intros _. cbn. by eexists.
Qed.

Lemma image_link_shaped (links : list value) :
  Forall link_shaped links → ∃ v, image_link links = Ok v.
Proof.
  induction 1 as [|link rest Hlink _ IH]; cbn [image_link]; [by eexists|].
  destruct link as [| | |a d| |]; try done. cbn [link_shaped] in Hlink.
  assert (Htype : ∃ link_type,
    or_else (getattr (VDict a d) "type" (VStr ""))
      (call_get (VDict a d) "type" (VStr "")) = Ok link_type ∧
    (truthy link_type = true → ∃ s, link_type = VStr s)).
  { unfold or_else, getattr, call_get.
    destruct a, (d !! "type"%string) as [[]|] eqn:Hd; cbn [truthy] in *;
      repeat match goal with
      | |- context [match ?s with EmptyString => _ | String _ _ => _ end] =>
          destruct s
      | |- context [if ?b then _ else _] => destruct b eqn:?
      end;
      eexists; (split; [reflexivity|]); cbn [truthy]; intros ?;
      try congruence; by eexists. }
  destruct Htype as (link_type & -> & Hstr). cbn [bind_r].
  assert (Hhref : ∃ href,
    or_else (getattr (VDict a d) "href" (VStr ""))
      (call_get (VDict a d) "href" (VStr "")) = Ok href).
  { unfold or_else, call_get.
    destruct (truthy (getattr (VDict a d) "href" (VStr "")));
      eexists; reflexivity. }
  destruct Hhref as (href & ->). cbn [bind_r].
  destruct (truthy link_type) eqn:Ht.
  - destruct (Hstr eq_refl) as [s ->]. cbn [call_startswith bind_r].
    destruct (String.prefix "image/" s && truthy href); [by eexists|done].
  - cbn [bind_r]. done.
Qed.

(** X14. On an entry of the shape [feedparser] gives it, [extract_image]
    returns and does not raise. *)
Theorem extract_image_returns_on_shaped_entry (entry : value) :
  entry_shaped entry → ∃ v, extract_image entry = Ok v.
Proof.
  intros (Hc & Ht & links & Hlinks & Hshaped). unfold extract_image.
  destruct (url_of_media_shaped _ Hc) as [[url|] ->]; cbn [bind_r];
    [by eexists|].
  destruct (url_of_media_shaped _ Ht) as [[url|] ->]; cbn [bind_r];
    [by eexists|].
  rewrite Hlinks. cbn [iterate bind_r]. by apply image_link_shaped.
Qed.

Lemma sample_entry_shaped : entry_shaped sample_entry.
Proof.
  split; [vm_compute; exact I|]. split; [vm_compute; exact I|].
  eexists. split; [vm_compute; reflexivity|].
  repeat (apply Forall_cons; split; [vm_compute; exact I|]). apply Forall_nil_2.
Defined.

Lemma extract_image_returns_on_shaped_entry_witness :
  ∃ v, extract_image sample_entry = Ok v.
Proof.
  apply (extract_image_returns_on_shaped_entry sample_entry).
  exact sample_entry_shaped.
Defined.

(** X15. [get_publisher_name] never raises, whatever the entry, and never
    returns an empty name of its own: it returns the feed name it was given
    or a truthy value found in the entry's source. *)
Theorem get_publisher_name_total (default_source_name : string)
    (entry : value) :
  ∃ v, get_publisher_name default_source_name entry = Ok v ∧
       (v = VStr default_source_name ∨ truthy v = true).
Proof.
  unfold get_publisher_name.
  destruct (truthy (getattr entry "source" VNone)); [|eexists; split; eauto].
  destruct (truthy (if truthy (getattr (getattr entry "source" VNone) "title"
                                 VNone)
                    then getattr (getattr entry "source" VNone) "title" VNone
                    else getattr (getattr entry "source" VNone) "name" VNone))
    eqn:Hattr; [eexists; split; eauto|].
  destruct (call_get (getattr entry "source" VNone) "title" VNone)
    as [t|e]; cbn [bind_r try_except]; [|eexists; split; eauto].
  destruct (truthy t) eqn:Ht; cbn [bind_r try_except].
  { rewrite Ht. eexists; split; eauto. }
  destruct (call_get (getattr entry "source" VNone) "name" VNone)
    as [n|e]; cbn [bind_r try_except]; [|eexists; split; eauto].
  destruct (truthy n) eqn:Hn; eexists; split; eauto.
Qed.

(** ** [index] *)

Lemma sorted_set_Sorted (l : list string) : Sorted String.le (sorted_set l).
Proof. unfold sorted_set. apply (Sorted_merge_sort String.le). Qed.

Lemma sorted_set_NoDup (l : list string) : NoDup (sorted_set l).
Proof.
  unfold sorted_set. rewrite (merge_sort_Permutation String.le).
  apply NoDup_elements.
Qed.

Lemma sorted_set_elem_of (l : list string) (s : string) :
  s ∈ sorted_set l ↔ s ∈ l.
Proof.
  unfold sorted_set. rewrite (merge_sort_Permutation String.le).
  by rewrite elem_of_elements, elem_of_list_to_set.
Qed.

Lemma getitem_source_ok (h : heap) (ls : list loc) :
  pool_allocated h ls →
  Forall (λ l, getitem_source h l = Ok (source_at h l)) ls.
Proof.
  intros Hal. eapply Forall_impl; [exact Hal|]. intros l [it Hit].
  unfold getitem_source, deref, source_at. by rewrite Hit.
Qed.

Lemma pool_allocated_subseteq (h : heap) (l k : list loc) :
  (∀ x, x ∈ l → x ∈ k) → pool_allocated h k → pool_allocated h l.
Proof.
  unfold pool_allocated. rewrite !Forall_forall. intros Hsub Hk x Hx.
  apply Hk, Hsub, Hx.
Qed.

Section MoreIndex.
Context {Response Entry TimeStruct : Type}.
Context (session_get : string → result Response).
Context (feedparser_parse : Response → result (list Entry)).
Context (published_parsed updated_parsed : Entry → option TimeStruct).
Context (entry_title entry_link entry_summary : Entry → option string).
Context (datetime_utc : TimeStruct → result datetime).
Context (extract_image : Entry → result (option string)).
Context (get_publisher_name : string → Entry → result string).
Context (feeds : list (string * string)) (now : Z).

Local Abbreviation all_items :=
  (concat (contribution session_get feedparser_parse published_parsed
             updated_parsed entry_title entry_link entry_summary datetime_utc
             extract_image get_publisher_name <$> feeds)).
Local Abbreviation h' := (store_after now (refs all_items) (objects all_items)).
Local Abbreviation recent :=
  (trim (Some 120)
     (select (dt_at h') (feed_at h') (link_at h') feeds.*1 (cutoff now) 1
        (refs all_items))).

Lemma index_unfold :
  index session_get feedparser_parse published_parsed updated_parsed
    entry_title entry_link entry_summary datetime_utc extract_image
    get_publisher_name feeds now =
  Ok ({| page_items := recent;
         unique_sources := sorted_set (source_at h' <$> recent);
         hours_window := HOURS_WINDOW |}, h').
Proof.
  unfold index. rewrite fetch_all_Ok. cbn [bind_r].
  rewrite run_select by apply refs_allocated. cbn [bind_r fst snd].
  rewrite (map_r_ok _ (source_at h')); [done|].
  apply getitem_source_ok.
  eapply pool_allocated_subseteq;
    [|apply store_after_allocated, refs_allocated].
  intros l. apply run_output_in_pool.
Qed.

Lemma recent_item (l : loc) :
  l ∈ recent →
  ∃ it d, h' !! l = Some it ∧ feed it ∈ feeds.*1 ∧ dt_ist it = Some d.
Proof.
  intros Hl%run_output_in_pool.
  assert (Hlt : (l < length all_items)%nat).
  { unfold refs in Hl. apply elem_of_seq in Hl. lia. }
  destruct (lookup_lt_is_Some_2 all_items l Hlt) as [it Hit].
  exists (stamp (now_ist now) it). eexists. split_and!.
  - apply store_after_lookup_in; [done|].
    unfold objects. by rewrite lookup_map_seq_0.
  - destruct (stamp_same_but_dt_ist (now_ist now) it) as (_ & <- & _).
    apply list_elem_of_lookup_2 in Hit.
    apply elem_of_concat_inv in Hit as (its & Hit & Hits).
    apply list_elem_of_fmap in Hits as ([name url] & -> & Hfeed).
    pose proof (contribution_tagged session_get feedparser_parse
      published_parsed updated_parsed entry_title entry_link entry_summary
      datetime_utc extract_image get_publisher_name name url) as Htag.
    rewrite Forall_forall in Htag. destruct (Htag it Hit) as [-> _].
    apply list_elem_of_fmap. by exists (name, url).
  - apply stamp_dt_ist.
Qed.




End MoreIndex.

(** ** The tallies of the log line *)

Lemma bump_lookup (k f : string) (counts : gmap string nat) :
  bump k counts !! f =
  if decide (k = f) then Some (default 0 (counts !! f) + 1)%nat
  else counts !! f.
Proof.
  unfold bump. destruct (decide (k = f)) as [->|Hne].
  - by rewrite lookup_insert_eq.
  - by rewrite lookup_insert_ne.
Qed.

Lemma debug_counts_spec (h : heap) (ls : list loc)
    (cf cs : gmap string nat) :
  pool_allocated h ls →
  ∃ cf' cs',
    debug_counts h ls cf cs = Ok (cf', cs') ∧
    (∀ f, cf' !! f =
          tallied (cf !! f) (length (filter (λ l, feed_at h l = f) ls))) ∧
    (∀ s, cs' !! s =
          tallied (cs !! s) (length (filter (λ l, source_at h l = s) ls))).
Proof.
  intros Hal. revert cf cs.
  induction Hal as [|l ls [it Hit] _ IH]; intros cf cs.
  - exists cf, cs. by split_and!.
  - cbn [debug_counts]. unfold getitem_feed, getitem_source, deref.
    rewrite Hit. cbn [bind_r].
    destruct (IH (bump (feed it) cf) (bump (source it) cs))
      as (cf' & cs' & -> & Hcf & Hcs).
    exists cf', cs'. split; [done|].
    assert (Hfeed : feed_at h l = feed it) by (unfold feed_at; by rewrite Hit).
    assert (Hsrc : source_at h l = source it)
      by (unfold source_at; by rewrite Hit).
    split.
    + intros f. rewrite Hcf, bump_lookup, filter_cons, Hfeed.
      destruct (decide (feed it = f)); cbn [length]; [|done].
      destruct (length (filter (λ l0, feed_at h l0 = f) ls));
        cbn; f_equal; lia.
    + intros s. rewrite Hcs, bump_lookup, filter_cons, Hsrc.
      destruct (decide (source it = s)); cbn [length]; [|done].
      destruct (length (filter (λ l0, source_at h l0 = s) ls));
        cbn; f_equal; lia.
Qed.

(** X19. The tallies logged at the end of [filter_last_window] are exact:
    a feed (a source) is listed if and only if some entry of the list has
    it, and then with the number of entries that have it. *)
Theorem debug_counts_exact (h : heap) (ls : list loc) :
  pool_allocated h ls →
  ∃ counts_by_feed counts_by_source,
    debug_counts h ls ∅ ∅ = Ok (counts_by_feed, counts_by_source) ∧
    (∀ f, counts_by_feed !! f =
          match length (filter (λ l, feed_at h l = f) ls) with
          | O => None
          | S n => Some (S n)
          end) ∧
    (∀ s, counts_by_source !! s =
          match length (filter (λ l, source_at h l = s) ls) with
          | O => None
          | S n => Some (S n)
          end).
Proof.
  intros Hal.
  destruct (debug_counts_spec h ls ∅ ∅ Hal) as (cf & cs & Hrun & Hcf & Hcs).
  exists cf, cs. split; [done|]. split.
  - intros f. rewrite Hcf, lookup_empty.
    by destruct (length (filter (λ l, feed_at h l = f) ls)).
  - intros s. rewrite Hcs, lookup_empty.
    by destruct (length (filter (λ l, source_at h l = s) ls)).
Qed.

Lemma debug_counts_exact_witness :
  ∃ counts_by_feed counts_by_source,
    debug_counts store_mixed pool_mixed ∅ ∅ =
      Ok (counts_by_feed, counts_by_source) ∧
    (∀ f, counts_by_feed !! f =
          match length (filter (λ l, feed_at store_mixed l = f) pool_mixed)
          with
          | O => None
          | S n => Some (S n)
          end) ∧
    (∀ s, counts_by_source !! s =
          match length (filter (λ l, source_at store_mixed l = s) pool_mixed)
          with
          | O => None
          | S n => Some (S n)
          end).
Proof.
  apply (debug_counts_exact store_mixed pool_mixed).
  exact pool_mixed_allocated.
Defined.
